(** * TestFlow front-end: archive views and HTTP transport

    A shallow embedding of the TypeScript sources

    - [frontend/src/views/archive/ArchiveDetail.vue]
    - [frontend/src/components/project/ProjectArchives.vue]
    - the axios instance with its two interceptors
    - the [archiveApi] request/response contracts

    Reactive component state is a record that every handler takes and
    returns; what a handler does to the outside world (requests, toasts,
    downloads) is the list of [Event]s it emits, in program order.  An
    awaited promise is the [Reply] the handler is given. *)

From Stdlib Require Import ZArith SpecFloat Ascii.
From stdpp Require Import base option list gmap strings pretty.

Set Default Proof Using "Type".
Set Warnings "-clear-no-such-hyp".
Local Open Scope string_scope.

(** ** JavaScript operators on strings and arrays *)

Module Js.

(** A value that is a string when present; [None] stands for
    [undefined] and [null]. *)
Definition Nullable := option string.

(** ToBoolean: [undefined], [null] and [''] are falsy. *)
Definition truthy (x : Nullable) : bool :=
  match x with
  | Some (String _ _) => true
  | _ => false
  end.

(** [x || d] with a string default. *)
Definition or (x : Nullable) (d : string) : string :=
  match x with
  | Some (String a s) => String a s
  | _ => d
  end.

(** [x === 'literal'] *)
Definition strict_eq (x : Nullable) (s : string) : bool :=
  match x with
  | Some y => String.eqb y s
  | None => false
  end.

(** [Number.MAX_SAFE_INTEGER]: up to here every integer is a number of
    its own. *)
Definition MAX_SAFE_INTEGER : N := 2 ^ 53 - 1.

(** [String(n)] and [`${n}`] for a non-negative integer.  JavaScript
    prints every digit of an integer below [10^21], and so of every safe
    integer; from [10^21] on it prints exponent form (["1e+21"]), which
    these functions do not: they stand for the code on integers up to
    [MAX_SAFE_INTEGER]. *)
Definition String_of_nat (n : nat) : string := pretty n.
Definition String_of_N (n : N) : string := pretty n.

(** [s.startsWith(p)] *)
Fixpoint startsWith (p s : string) : bool :=
  match p, s with
  | EmptyString, _ => true
  | String a p', String b s' => if Ascii.eqb a b then startsWith p' s' else false
  | String _ _, EmptyString => false
  end.

(** [s.includes(p)] *)
Fixpoint includes (p s : string) : bool :=
  startsWith p s ||
  match s with
  | EmptyString => false
  | String _ s' => includes p s'
  end.

(** [xs.join(sep)] *)
Fixpoint join (sep : string) (xs : list string) : string :=
  match xs with
  | [] => ""
  | [x] => x
  | x :: xs' => x +:+ sep +:+ join sep xs'
  end.

(** [xs.forEach((x, idx) => ...)], the mutated object threaded through. *)
Fixpoint forEach {A St : Type} (f : St → A → nat → St)
    (xs : list A) (idx : nat) (st : St) : St :=
  match xs with
  | [] => st
  | x :: xs' => forEach f xs' (S idx) (f st x idx)
  end.

(** [xs.findIndex(p)]; [None] is [-1]. *)
Fixpoint findIndex {A : Type} (p : A → bool) (xs : list A) : option nat :=
  match xs with
  | [] => None
  | x :: xs' => if p x then Some 0 else S <$> findIndex p xs'
  end.

End Js.

(** ** JavaScript numbers: IEEE 754 binary64 *)

Module Number.

Definition prec : Z := 53.
Definition emax : Z := 1024.

Definition of_Z (z : Z) : spec_float := binary_normalize prec emax z 0 false.
Definition of_nat (n : nat) : spec_float := of_Z (Z.of_nat n).

(** [x / y] and [x * y] *)
Definition div : spec_float → spec_float → spec_float := SFdiv prec emax.
Definition mul : spec_float → spec_float → spec_float := SFmul prec emax.

(** The integer nearest to [m * 2^e] for [m >= 0], the larger of the two
    on a tie. *)
Definition round_half_up (m e : Z) : Z :=
  if (0 <=? e)%Z then (m * 2 ^ e)%Z
  else ((2 * m + 2 ^ (- e)) / 2 ^ (1 - e))%Z.

Fixpoint zeros (k : nat) : string :=
  match k with
  | O => ""
  | S k' => "0" +:+ zeros k'
  end.

(** The digits of [n], padded on the left to [f + 1] digits, with a point
    before the last [f]. *)
Definition fixed (f : nat) (n : Z) : string :=
  let m := pretty (Z.to_N n) in
  let m := if (String.length m <=? f)%nat
           then zeros (f + 1 - String.length m) +:+ m else m in
  let k := String.length m in
  match f with
  | O => m
  | S _ => String.substring 0 (k - f) m +:+ "." +:+ String.substring (k - f) f m
  end.

(** [x.toFixed(f)] after ECMA-262, for magnitudes below [10^21].  At or
    above that the standard switches to exponent notation; this function
    keeps printing digits there. *)
Definition toFixed (f : nat) (x : spec_float) : string :=
  match x with
  | S754_nan => "NaN"
  | S754_infinity s => if s then "-Infinity" else "Infinity"
  | S754_zero _ => fixed f 0
  | S754_finite s m e =>
      (if s then "-" else "")
      +:+ fixed f (round_half_up (Z.pos m * 10 ^ Z.of_nat f) e)
  end.

End Number.

(** ** [archiveApi]: the typed contracts *)

Record TestStep := { action : string; expected : string }.

(** An entry of [step_execution_results : Record<string, any>]: either
    field may be missing in what the server stored. *)
Record SavedStep := {
  saved_status : Js.Nullable;
  saved_actual : Js.Nullable
}.

(** An entry of the draft,
    [Record<string, { status: string, actual: string }>]. *)
Record StepResult := { step_status : string; step_actual : string }.

Record ArchivedTestCase := {
  id : N;
  original_case_id : option N;
  title : string;
  description : Js.Nullable;
  preconditions : Js.Nullable;
  test_steps : option (list TestStep);
  expected_result : Js.Nullable;
  module_name : Js.Nullable;
  module_full_path : Js.Nullable;
  priority : Js.Nullable;
  test_category : Js.Nullable;
  design_method : Js.Nullable;
  execution_status : Js.Nullable;
  execution_comment : Js.Nullable;
  step_execution_results : option (gmap string SavedStep);
  updated_at : string;
  updated_by_name : Js.Nullable
}.

Record ExecutionUpdateRequest := {
  req_status : string;
  req_comment : string;
  req_step_results : gmap string StepResult
}.

Record ArchiveCreateRequest := {
  req_name : string;
  req_description : string;
  test_case_ids : list (option N)
}.

Module ProjectArchive.
Record t := {
  id : N;
  name : string;
  description : Js.Nullable;
  status : string;
  created_at : string;
  created_by_name : string;
  case_count : nat
}.
End ProjectArchive.

(** A draft entry as it travels in JSON: both fields present. *)
Definition to_saved (r : StepResult) : SavedStep :=
  {| saved_status := Some (step_status r); saved_actual := Some (step_actual r) |}.

#[global] Instance SavedStep_eq_dec : EqDecision SavedStep.
Proof. solve_decision. Defined.
#[global] Instance StepResult_eq_dec : EqDecision StepResult.
Proof. solve_decision. Defined.

(** ** What a handler does to the outside world *)

(** The outcome of an awaited request; a rejection carries
    [error.response?.data?.detail] when there is one. *)
Inductive Reply (A : Type) :=
  | Resolved (a : A)
  | Rejected (detail : Js.Nullable).
Arguments Resolved {A} a.
Arguments Rejected {A} detail.

(** The bytes of an exported file. *)
Definition Blob := string.

Inductive Event :=
  | MessageSuccess (text : string)
  | MessageWarning (text : string)
  | MessageError (text : string)
  | PutExecution (caseId : N) (body : ExecutionUpdateRequest)
  | PostExport (archive : N) (format : string)
  | PostArchive (projectId : N) (body : ArchiveCreateRequest)
  | GetArchives (projectId : N)
  | Download (filename : string) (content : Blob)
  | TypeError.

(** The requests among the events. *)
Definition is_request (e : Event) : bool :=
  match e with
  | PutExecution _ _ | PostExport _ _ | PostArchive _ _ | GetArchives _ => true
  | _ => false
  end.

(** ** [ArchiveDetail.vue] *)

Module ArchiveDetail.

(** [currentExecution = reactive({ status, comment, step_results })] *)
Record Execution := {
  status : string;
  comment : string;
  step_results : gmap string StepResult
}.

Record View := {
  archiveId : N;
  testCases : list ArchivedTestCase;
  archiveName : string;
  drawerVisible : bool;
  currentCase : option ArchivedTestCase;
  currentExecution : Execution;
  saving : bool;
  exporting : bool
}.

(** The refs as [<script setup>] creates them. *)
Definition setup (archive : N) : View :=
  {| archiveId := archive;
     testCases := [];
     archiveName := "归档详情";
     drawerVisible := false;
     currentCase := None;
     currentExecution :=
       {| status := "skipped"; comment := ""; step_results := ∅ |};
     saving := false;
     exporting := false |}.

(** *** [stats] *)

Record Stats := {
  total : nat;
  passed : nat;
  failed : nat;
  blocked : nat;
  skipped : nat;
  passRate : string
}.

(** [testCases.value.filter(c => c.execution_status === bucket).length] *)
Definition count_status (bucket : string) (cases : list ArchivedTestCase) : nat :=
  length (List.filter (λ c, Js.strict_eq (execution_status c) bucket) cases).

(** [(passed / total) * 100] *)
Definition percent (passed total : nat) : spec_float :=
  Number.mul (Number.div (Number.of_nat passed) (Number.of_nat total))
             (Number.of_nat 100).

Definition stats (v : View) : Stats :=
  let total := length (testCases v) in
  let passed := count_status "passed" (testCases v) in
  let failed := count_status "failed" (testCases v) in
  let blocked := count_status "blocked" (testCases v) in
  let skipped := count_status "skipped" (testCases v) in
  {| total := total;
     passed := passed;
     failed := failed;
     blocked := blocked;
     skipped := skipped;
     passRate :=
       if (0 <? total)%nat
       then Number.toFixed 1 (percent passed total)
       else "0.0" |}.

(** The rate as the specification words it, to compare with [passRate]:
    the exact quotient [passed / total * 100] to one decimal, that is
    the nearest number of tenths, the larger one on a tie (the rule
    [toFixed] applies to the number it is given), and ["0.0"] for no
    cases. *)
Definition passRate_as_specified (passed total : nat) : string :=
  if (0 <? total)%nat then
    let n := ((2 * (1000 * passed) + total) / (2 * total))%nat in
    pretty (n / 10)%nat +:+ "." +:+ pretty (n mod 10)%nat
  else "0.0".

(** *** [openRunDrawer] *)

(** [row.step_execution_results?.[stepNum]] *)
Definition saved_at (row : ArchivedTestCase) (stepNum : string) : option SavedStep :=
  step_execution_results row ≫= (.!! stepNum).

(** The body of the [forEach] callback. *)
Definition seed_step (row : ArchivedTestCase)
    (results : gmap string StepResult) (_ : TestStep) (idx : nat)
    : gmap string StepResult :=
  let stepNum := Js.String_of_nat (idx + 1) in
  let saved := saved_at row stepNum in
  <[stepNum :=
      {| step_status := Js.or (saved ≫= saved_status) "skipped";
         step_actual := Js.or (saved ≫= saved_actual) "" |}]> results.

Definition openRunDrawer (row : ArchivedTestCase) (v : View) : View :=
  let results :=
    match test_steps row with
    | Some steps => Js.forEach (seed_step row) steps 0 ∅
    | None => ∅
    end in
  {| archiveId := archiveId v;
     testCases := testCases v;
     archiveName := archiveName v;
     drawerVisible := true;
     currentCase := Some row;
     currentExecution :=
       {| status := Js.or (execution_status row) "skipped";
          comment := Js.or (execution_comment row) "";
          step_results := results |};
     saving := saving v;
     exporting := exporting v |}.

(** The number of step cards the drawer renders,
    [currentCase.test_steps?.length || 0]. *)
Definition step_count (row : ArchivedTestCase) : nat :=
  match test_steps row with
  | Some steps => length steps
  | None => 0
  end.

(** *** The drawer's [v-model] bindings *)

(** [v-model="currentExecution.step_results[String(idx+1)].status"]:
    assigning through a missing entry throws, which is [None]. *)
Definition setStepStatus (idx : nat) (value : string) (e : Execution) : option Execution :=
  let stepNum := Js.String_of_nat (idx + 1) in
  r ← step_results e !! stepNum;
  Some {| status := status e;
          comment := comment e;
          step_results :=
            <[stepNum := {| step_status := value; step_actual := step_actual r |}]>
              (step_results e) |}.

(** [v-model="currentExecution.step_results[String(idx+1)].actual"] *)
Definition setStepActual (idx : nat) (value : string) (e : Execution) : option Execution :=
  let stepNum := Js.String_of_nat (idx + 1) in
  r ← step_results e !! stepNum;
  Some {| status := status e;
          comment := comment e;
          step_results :=
            <[stepNum := {| step_status := step_status r; step_actual := value |}]>
              (step_results e) |}.

(** [v-model="currentExecution.status"] *)
Definition setStatus (value : string) (e : Execution) : Execution :=
  {| status := value; comment := comment e; step_results := step_results e |}.

(** [v-model="currentExecution.comment"] *)
Definition setComment (value : string) (e : Execution) : Execution :=
  {| status := status e; comment := value; step_results := step_results e |}.

(** One edit in the drawer. *)
Inductive Edit :=
  | StepStatus (idx : nat) (value : string)
  | StepActual (idx : nat) (value : string)
  | OverallStatus (value : string)
  | OverallComment (value : string).

Definition edit (a : Edit) (e : Execution) : option Execution :=
  match a with
  | StepStatus idx value => setStepStatus idx value e
  | StepActual idx value => setStepActual idx value e
  | OverallStatus value => Some (setStatus value e)
  | OverallComment value => Some (setComment value e)
  end.

(** The edits that touch a step card only. *)
Definition is_step_edit (a : Edit) : bool :=
  match a with
  | StepStatus _ _ | StepActual _ _ => true
  | OverallStatus _ | OverallComment _ => false
  end.

(** A run of edits, in order; it stops at the first that throws. *)
Fixpoint edits (l : list Edit) (e : Execution) : option Execution :=
  match l with
  | [] => Some e
  | a :: l' => edit a e ≫= edits l'
  end.

(** The view with the draft replaced: what the bindings write to. *)
Definition with_execution (e : Execution) (v : View) : View :=
  {| archiveId := archiveId v;
     testCases := testCases v;
     archiveName := archiveName v;
     drawerVisible := drawerVisible v;
     currentCase := currentCase v;
     currentExecution := e;
     saving := saving v;
     exporting := exporting v |}.

(** *** [saveExecution] *)

(** The object literal passed to [archiveApi.updateExecution]. *)
Definition payload (e : Execution) : ExecutionUpdateRequest :=
  {| req_status := status e;
     req_comment := comment e;
     req_step_results := step_results e |}.

(** [testCases.value[idx] = updated] at the first [c.id === updated.id]. *)
Definition update_local_list (updated : ArchivedTestCase)
    (cases : list ArchivedTestCase) : list ArchivedTestCase :=
  match Js.findIndex (λ c, N.eqb (id c) (id updated)) cases with
  | Some idx => <[idx := updated]> cases
  | None => cases
  end.

Definition saveExecution
    (updateExecution : N → ExecutionUpdateRequest → Reply ArchivedTestCase)
    (v : View) : View * list Event :=
  match currentCase v with
  | None => (v, [])
  | Some c =>
      let body := payload (currentExecution v) in
      match updateExecution (id c) body with
      | Resolved updated =>
          ({| archiveId := archiveId v;
              testCases := update_local_list updated (testCases v);
              archiveName := archiveName v;
              drawerVisible := false;
              currentCase := currentCase v;
              currentExecution := currentExecution v;
              saving := false;
              exporting := exporting v |},
           [PutExecution (id c) body; MessageSuccess "保存成功"])
      | Rejected _ =>
          ({| archiveId := archiveId v;
              testCases := testCases v;
              archiveName := archiveName v;
              drawerVisible := drawerVisible v;
              currentCase := currentCase v;
              currentExecution := currentExecution v;
              saving := false;
              exporting := exporting v |},
           [PutExecution (id c) body; MessageError "保存失败"])
      end
  end.

(** *** [handleExport] *)

Definition export_ext (format : string) : string :=
  if String.eqb format "xmind" then "xmind"
  else if String.eqb format "markdown" then "md"
  else "csv".

Definition export_filename (name format : string) : string :=
  name +:+ "_导出." +:+ export_ext format.

Definition handleExport (exportArchive : N → string → Reply Blob)
    (format : string) (v : View) : View * list Event :=
  let settled :=
    {| archiveId := archiveId v;
       testCases := testCases v;
       archiveName := archiveName v;
       drawerVisible := drawerVisible v;
       currentCase := currentCase v;
       currentExecution := currentExecution v;
       saving := saving v;
       exporting := false |} in
  match exportArchive (archiveId v) format with
  | Resolved blob =>
      (settled,
       [PostExport (archiveId v) format;
        Download (export_filename (archiveName v) format) blob;
        MessageSuccess "导出成功"])
  | Rejected _ =>
      (settled, [PostExport (archiveId v) format; MessageError "导出失败"])
  end.

(** *** The step card's actual-result input *)

(** The [v-if] of the input:
    [step_results[String(idx+1)].status !== 'passed' && ... !== 'skipped'];
    rendering through a missing entry throws, which is [None]. *)
Definition shows_actual_input (idx : nat) (e : Execution) : option bool :=
  r ← step_results e !! Js.String_of_nat (idx + 1);
  Some (negb (String.eqb (step_status r) "passed")
        && negb (String.eqb (step_status r) "skipped")).

(** *** [loadData] *)

(** The page with [loading], the ref that [View] leaves out. *)
Record Page := { view : View; loading : bool }.

(** The request for the cases of an archive, beside the [Event]s. *)
Inductive Fetch :=
  | GetArchiveCases (archive : N).

Definition with_testCases (cases : list ArchivedTestCase) (v : View) : View :=
  {| archiveId := archiveId v;
     testCases := cases;
     archiveName := archiveName v;
     drawerVisible := drawerVisible v;
     currentCase := currentCase v;
     currentExecution := currentExecution v;
     saving := saving v;
     exporting := exporting v |}.

Definition with_archiveName (name : string) (v : View) : View :=
  {| archiveId := archiveId v;
     testCases := testCases v;
     archiveName := name;
     drawerVisible := drawerVisible v;
     currentCase := currentCase v;
     currentExecution := currentExecution v;
     saving := saving v;
     exporting := exporting v |}.

(** [archives.find(a => a.id === archiveId)] *)
Definition find_archive (archive : N) (archives : list ProjectArchive.t)
    : option ProjectArchive.t :=
  List.find (λ a, N.eqb (ProjectArchive.id a) archive) archives.

(** [projectId] is [route.params.projectId], a decimal id when the route
    carries one. *)
Definition loadData
    (getArchiveCases : N → Reply (list ArchivedTestCase))
    (getArchives : N → Reply (list ProjectArchive.t))
    (projectId : option N) (p : Page) : Page * list (Fetch + Event) :=
  let v := view p in
  match getArchiveCases (archiveId v) with
  | Rejected _ =>
      ({| view := v; loading := false |},
       [inl (GetArchiveCases (archiveId v)); inr (MessageError "加载数据失败")])
  | Resolved cases =>
      let v1 := with_testCases cases v in
      match projectId with
      | None =>
          ({| view := v1; loading := false |},
           [inl (GetArchiveCases (archiveId v))])
      | Some pid =>
          match getArchives pid with
          | Rejected _ =>
              ({| view := v1; loading := false |},
               [inl (GetArchiveCases (archiveId v));
                inr (GetArchives pid);
                inr (MessageError "加载数据失败")])
          | Resolved archives =>
              let v2 :=
                match find_archive (archiveId v) archives with
                | Some arc => with_archiveName (ProjectArchive.name arc) v1
                | None => v1
                end in
              ({| view := v2; loading := false |},
               [inl (GetArchiveCases (archiveId v)); inr (GetArchives pid)])
          end
      end
  end.

End ArchiveDetail.

(** ** [ProjectArchives.vue] *)

Module ProjectArchives.

(** What [projectApi.getProjectTestCases(projectId, { view_mode:
    'hierarchy' })] resolves to: modules, each with its cases. *)
Record CaseItem := { tc_id : N; tc_title : string }.
Record ModuleItem := {
  mod_id : N;
  mod_name : string;
  mod_test_cases : option (list CaseItem)
}.

(** The three shapes of node object [openCreateDialog] builds. *)
Record CaseNode := {
  case_key : string;
  case_label : string;
  case_id : N;
  isLeaf : bool
}.
Record ModuleNode := {
  module_key : string;
  module_label : string;
  module_children : list CaseNode
}.
Record RootNode := {
  root_key : string;
  root_label : string;
  root_children : list ModuleNode
}.

(** A node object of any of the three shapes, as the tree hands it back. *)
Inductive NodeData :=
  | OfRoot (r : RootNode)
  | OfModule (m : ModuleNode)
  | OfCase (c : CaseNode).

(** [node.key] *)
Definition key (node : NodeData) : string :=
  match node with
  | OfRoot r => root_key r
  | OfModule m => module_key m
  | OfCase c => case_key c
  end.

(** [node.id]: only case nodes have one. *)
Definition node_id (node : NodeData) : option N :=
  match node with
  | OfCase c => Some (case_id c)
  | _ => None
  end.

(** *** [openCreateDialog]: building the tree *)

Definition case_node (tc : CaseItem) : CaseNode :=
  {| case_key := "case-" +:+ Js.String_of_N (tc_id tc);
     case_label := tc_title tc;
     case_id := tc_id tc;
     isLeaf := true |}.

(** [mod.test_cases || []] *)
Definition cases_of (m : ModuleItem) : list CaseItem :=
  default [] (mod_test_cases m).

Definition module_node (m : ModuleItem) : ModuleNode :=
  {| module_key := "module-" +:+ Js.String_of_N (mod_id m);
     module_label := mod_name m;
     module_children := case_node <$> cases_of m |}.

(** [node.children && node.children.length > 0] *)
Definition has_children (node : ModuleNode) : bool :=
  (0 <? length (module_children node))%nat.

Definition build_tree (data : list ModuleItem) : list RootNode :=
  let modules := List.filter has_children (module_node <$> data) in
  [ {| root_key := "root-all";
       root_label := "全部用例";
       root_children := modules |} ].

(** Modelled from the spec: the checkbox tree behind [treeRef] is a
    widget of the UI library and its code is not part of the sources.
    The user ticks nodes of any granularity (root, module or case); a
    tick on a folder covers everything below it.  [getCheckedNodes]
    stands for the call [getCheckedNodes(true, false)]: the node objects,
    in display order and each at most once, of the checked nodes that
    have nothing below them. *)
Record TreeWidget := {
  data : list RootNode;
  ticked : gset string
}.

(** Modelled from the spec: the checked leaves below one module node,
    given whether a tick above already covers it. *)
Definition checked_cases (w : TreeWidget) (above : bool) (m : ModuleNode) : list NodeData :=
  let on_m := above || bool_decide (module_key m ∈ ticked w) in
  match module_children m with
  | [] => if on_m then [OfModule m] else []
  | cs =>
      OfCase <$> List.filter (λ c, on_m || bool_decide (case_key c ∈ ticked w)) cs
  end.

(** Modelled from the spec: the checked leaves below one root node. *)
Definition checked_modules (w : TreeWidget) (r : RootNode) : list NodeData :=
  let on_r := bool_decide (root_key r ∈ ticked w) in
  match root_children r with
  | [] => if on_r then [OfRoot r] else []
  | ms => ms ≫= checked_cases w on_r
  end.

(** Modelled from the spec: [treeRef.value.getCheckedNodes(true, false)],
    a method of the UI library's tree. *)
Definition getCheckedNodes (w : TreeWidget) : list NodeData :=
  data w ≫= checked_modules w.

(** Modelled from the spec: the user ticks the checkbox of the node
    with key [k]. *)
Definition tick (k : string) (w : TreeWidget) : TreeWidget :=
  {| data := data w; ticked := {[ k ]} ∪ ticked w |}.

(** *** Component state *)

Record CreateForm := { name : string; description : string }.

Record View := {
  createDialogVisible : bool;
  createForm : CreateForm;
  creating : bool;
  loadingCases : bool;
  treeData : list RootNode;
  treeRef : option TreeWidget
}.

Definition openCreateDialog
    (getProjectTestCases : N → Reply (list ModuleItem))
    (projectId : N) (v : View) : View * list Event :=
  match getProjectTestCases projectId with
  | Resolved listing =>
      let tree := build_tree listing in
      ({| createDialogVisible := true;
          createForm := {| name := ""; description := "" |};
          creating := creating v;
          loadingCases := false;
          treeData := tree;
          treeRef := Some {| data := tree; ticked := ∅ |} |},
       [])
  | Rejected _ =>
      ({| createDialogVisible := true;
          createForm := {| name := ""; description := "" |};
          creating := creating v;
          loadingCases := false;
          treeData := [];
          treeRef := Some {| data := []; ticked := ∅ |} |},
       [MessageError "加载测试用例失败"])
  end.

(** *** [handleCreate] *)

(** [checkedNodes.filter(node => node.key.startsWith('case-'))
                  .map(node => node.id)] *)
Definition caseIds (checkedNodes : list NodeData) : list (option N) :=
  node_id <$> List.filter (λ node, Js.startsWith "case-" (key node)) checkedNodes.

Definition handleCreate
    (createArchive : N → ArchiveCreateRequest → Reply ProjectArchive.t)
    (projectId : N) (v : View) : View * list Event :=
  if negb (Js.truthy (Some (name (createForm v)))) then
    (v, [MessageWarning "请输入归档名称"])
  else
    match treeRef v with
    | None => (v, [TypeError])
    | Some tree =>
        let ids := caseIds (getCheckedNodes tree) in
        if (length ids =? 0)%nat then
          (v, [MessageWarning "请至少选择一个测试用例"])
        else
          let body :=
            {| req_name := name (createForm v);
               req_description := description (createForm v);
               test_case_ids := ids |} in
          match createArchive projectId body with
          | Resolved _ =>
              ({| createDialogVisible := false;
                  createForm := createForm v;
                  creating := false;
                  loadingCases := loadingCases v;
                  treeData := treeData v;
                  treeRef := treeRef v |},
               [PostArchive projectId body;
                MessageSuccess "归档创建成功";
                GetArchives projectId])
          | Rejected detail =>
              ({| createDialogVisible := createDialogVisible v;
                  createForm := createForm v;
                  creating := false;
                  loadingCases := loadingCases v;
                  treeData := treeData v;
                  treeRef := treeRef v |},
               [PostArchive projectId body;
                MessageError (Js.or detail "创建归档失败")])
          end
    end.

(** The ids the form would submit: none while the tree is not
    mounted. *)
Definition selection (v : View) : list (option N) :=
  match treeRef v with
  | Some tree => caseIds (getCheckedNodes tree)
  | None => []
  end.

(** The create requests among the events. *)
Definition is_create (e : Event) : bool :=
  match e with
  | PostArchive _ _ => true
  | _ => false
  end.

(** The cases of a listing that a set of ticks covers: a case is covered
    by a tick on the root, on its module or on itself. *)
Definition covered (marks : gset string) (m : ModuleItem) (tc : CaseItem) : bool :=
  bool_decide ("root-all" ∈ marks)
  || bool_decide (module_key (module_node m) ∈ marks)
  || bool_decide (case_key (case_node tc) ∈ marks).

Definition covered_cases (marks : gset string) (listing : list ModuleItem)
    : list CaseItem :=
  listing ≫= (λ m, List.filter (covered marks m) (cases_of m)).

(** *** The keys of a tree *)

(** The [key] of every node, in display order; the tree identifies its
    nodes by them ([node-key="key"]). *)
Definition module_keys (m : ModuleNode) : list string :=
  module_key m :: (case_key <$> module_children m).

Definition keys_of (tree : list RootNode) : list string :=
  tree ≫= (λ r, root_key r :: (root_children r ≫= module_keys)).

(** *** [goToDetail] *)

(** The path handed to [router.push]. *)
Definition goToDetail (projectId archiveId : N) : string :=
  "/projects/" +:+ Js.String_of_N projectId
  +:+ "/archives/" +:+ Js.String_of_N archiveId.

(** *** What the user does in the dialog *)

(** [v-model="createForm.name"] and [v-model="createForm.description"] *)
Definition fill_form (form : CreateForm) (v : View) : View :=
  {| createDialogVisible := createDialogVisible v;
     createForm := form;
     creating := creating v;
     loadingCases := loadingCases v;
     treeData := treeData v;
     treeRef := treeRef v |}.

(** Modelled from the spec: ticks on the mounted tree, one after the
    other. *)
Definition tick_all (keys : list string) (v : View) : View :=
  {| createDialogVisible := createDialogVisible v;
     createForm := createForm v;
     creating := creating v;
     loadingCases := loadingCases v;
     treeData := treeData v;
     treeRef := (λ w, foldr tick w keys) <$> treeRef v |}.

End ProjectArchives.

(** ** The axios instance and its interceptors *)

Module Http.

(** [InternalAxiosRequestConfig], as far as the interceptors touch it. *)
Record Config := {
  url : option string;
  headers : gmap string string
}.

(** What the interceptors reach outside the request: [localStorage] and
    [window.location.href]. *)
Record Browser := {
  localStorage : gmap string string;
  location_href : string
}.

(** [localStorage.removeItem(k)] *)
Definition removeItem (k : string) (b : Browser) : Browser :=
  {| localStorage := delete k (localStorage b);
     location_href := location_href b |}.

(** [window.location.href = target] *)
Definition navigate (target : string) (b : Browser) : Browser :=
  {| localStorage := localStorage b; location_href := target |}.

(** *** Request interceptor *)

Definition on_request (b : Browser) (config : Config) : Config :=
  let token := localStorage b !! "access_token" in
  match token with
  | Some (String a t) =>
      {| url := url config;
         headers := <["Authorization" := "Bearer " +:+ String a t]> (headers config) |}
  | _ => config
  end.

(** *** Response interceptor, error branch *)

(** One entry of a validation error list. *)
Record Item := { msg : Js.Nullable }.

(** [data.detail] is a text or, for validation errors, a list. *)
Inductive Detail :=
  | Text (s : string)
  | Items (items : list Item).

(** The error body: a JSON object that may carry [detail] and
    [message]. *)
Record Data := {
  detail : option Detail;
  message : Js.Nullable
}.

Record Response := {
  status : N;
  data : Data
}.

(** The error handed to the interceptor: [error.response],
    whether [error.request] is set, [error.config], [error.message]. *)
Record AxiosError := {
  response : option Response;
  request : bool;
  config : option Config;
  error_message : Detail
}.

(** [m || d] where [m] is a text or an array (arrays are truthy). *)
Definition or_text (m : Detail) (d : string) : Detail :=
  match m with
  | Text EmptyString => Text d
  | _ => m
  end.

(** [data.detail || data.message || ''] *)
Definition backend_message (d : Data) : Detail :=
  match detail d with
  | Some (Text (String a s)) => Text (String a s)
  | Some (Items items) => Items items
  | _ => Text (Js.or (message d) "")
  end.

(** [error.config?.url?.includes('/auth/login')] *)
Definition is_login (e : AxiosError) : bool :=
  match config e with
  | Some c =>
      match url c with
      | Some u => Js.includes "/auth/login" u
      | None => false
      end
  | None => false
  end.

(** [data.detail.map((item: any) => item.msg).join(', ')] *)
Definition join_msgs (items : list Item) : string :=
  Js.join ", " ((λ item, default "" (msg item)) <$> items).

Definition with_message (m : Detail) (e : AxiosError) : AxiosError :=
  {| response := response e;
     request := request e;
     config := config e;
     error_message := m |}.

(** The rejection handler: the browser state after it ran and the error
    it rejects with. *)
Definition on_response_error (b : Browser) (error : AxiosError)
    : Browser * AxiosError :=
  match response error with
  | Some r =>
      let errorMessage := backend_message (data r) in
      match status r with
      | 401%N =>
          if is_login error then
            (b, with_message (or_text errorMessage "用户名或密码错误") error)
          else
            let b1 := removeItem "access_token" b in
            let b2 := removeItem "refresh_token" b1 in
            let b3 := navigate "/login" b2 in
            (b3, with_message (Text "登录已过期，请重新登录") error)
      | 403%N => (b, with_message (or_text errorMessage "权限不足") error)
      | 404%N => (b, with_message (or_text errorMessage "请求的资源不存在") error)
      | 422%N =>
          match detail (data r) with
          | Some (Items items) =>
              (b, with_message (Text ("参数错误: " +:+ join_msgs items)) error)
          | _ => (b, with_message (or_text errorMessage "参数错误") error)
          end
      | 500%N => (b, with_message (or_text errorMessage "服务器内部错误") error)
      | _ =>
          (b, with_message
                (or_text errorMessage
                   ("请求失败 (" +:+ Js.String_of_N (status r) +:+ ")"))
                error)
      end
  | None =>
      if request error then
        (b, with_message (Text "网络连接失败，请检查网络设置") error)
      else
        (b, with_message (Text "请求配置错误") error)
  end.

End Http.

(** ** [archiveApi]: the five calls *)

Module ArchiveApi.

Inductive Method := GET | POST | PUT.

(** A call as [api.get] / [api.post] / [api.put] receives it: the
    method and the URL built by the template literal. *)
Record Call := { method : Method; path : string }.

Definition createArchive (projectId : N) : Call :=
  {| method := POST;
     path := "/projects/" +:+ Js.String_of_N projectId +:+ "/archives" |}.

Definition getArchives (projectId : N) : Call :=
  {| method := GET;
     path := "/projects/" +:+ Js.String_of_N projectId +:+ "/archives" |}.

Definition getArchiveCases (archive : N) : Call :=
  {| method := GET;
     path := "/archives/" +:+ Js.String_of_N archive +:+ "/test-cases" |}.

Definition updateExecution (caseId : N) : Call :=
  {| method := PUT;
     path := "/archives/cases/" +:+ Js.String_of_N caseId +:+ "/execution" |}.

Definition exportArchive (archive : N) : Call :=
  {| method := POST;
     path := "/archives/" +:+ Js.String_of_N archive +:+ "/export" |}.

(** The request configuration the interceptors see for a call: its URL
    and the instance's default header. *)
Definition config_of (c : Call) : Http.Config :=
  {| Http.url := Some (path c);
     Http.headers := {[ "Content-Type" := "application/json" ]} |}.

(** The error axios raises when the server answers a call with a
    failure status. *)
Definition failed (c : Call) (r : Http.Response) : Http.AxiosError :=
  {| Http.response := Some r;
     Http.request := true;
     Http.config := Some (config_of c);
     Http.error_message := Http.Text "Request failed" |}.

End ArchiveApi.

(** ** Characters of a string *)

Module Chars.

Fixpoint occurs (c : Ascii.ascii) (s : string) : bool :=
  match s with
  | EmptyString => false
  | String a s' => Ascii.eqb a c || occurs c s'
  end.

Definition is_digit (c : Ascii.ascii) : bool := occurs c "0123456789".

Fixpoint every (P : Ascii.ascii → bool) (s : string) : bool :=
  match s with
  | EmptyString => true
  | String a s' => P a && every P s'
  end.

End Chars.

(** * Sample data *)

Module Sample.

(** An archived case with the given identity, steps and execution
    fields; the descriptive fields are fixed. *)
Definition archived (i : N) (steps : option (list TestStep))
    (st cm : Js.Nullable) (results : option (gmap string SavedStep))
    : ArchivedTestCase :=
  {| id := i;
     original_case_id := Some i;
     title := "login";
     description := None;
     preconditions := None;
     test_steps := steps;
     expected_result := None;
     module_name := Some "auth";
     module_full_path := Some "auth";
     priority := Some "high";
     test_category := None;
     design_method := None;
     execution_status := st;
     execution_comment := cm;
     step_execution_results := results;
     updated_at := "2024-01-01T00:00:00";
     updated_by_name := None |}.

Definition two_steps : list TestStep :=
  [ {| action := "open the page"; expected := "form shown" |};
    {| action := "submit"; expected := "signed in" |} ].

(** Step 1 was saved with a note but without a status; step 2 was
    never saved. *)
Definition half_saved : ArchivedTestCase :=
  archived 7 (Some two_steps) None None
    (Some {[ "1" := {| saved_status := None; saved_actual := Some "timeout" |} ]}).

(** Step 1 saved in full. *)
Definition fully_saved : ArchivedTestCase :=
  archived 8 (Some two_steps) (Some "failed") (Some "retry")
    (Some {[ "1" := {| saved_status := Some "failed"; saved_actual := Some "timeout" |} ]}).

(** Ten cases: six passed, one failed, one blocked, one in progress,
    one never executed. *)
Definition ten_cases : list ArchivedTestCase :=
  (((λ i, archived i None (Some "passed") None None) <$> [1; 2; 3; 4; 5; 6]%N)
   ++ [ archived 7 None (Some "failed") None None;
        archived 8 None (Some "blocked") None None;
        archived 9 None (Some "in_progress") None None;
        archived 10 None None None None ])%list.

(** Eighty cases: the first 23 passed, the other 57 failed. *)
Definition eighty_cases : list ArchivedTestCase :=
  (((λ i, archived (N.of_nat i) None (Some "passed") None None) <$> seq 1 23)
   ++ ((λ i, archived (N.of_nat i) None (Some "failed") None None)
         <$> seq 24 57))%list.

Definition detail_view (cases : list ArchivedTestCase) : ArchiveDetail.View :=
  {| ArchiveDetail.archiveId := 3;
     ArchiveDetail.testCases := cases;
     ArchiveDetail.archiveName := "v1.0";
     ArchiveDetail.drawerVisible := false;
     ArchiveDetail.currentCase := None;
     ArchiveDetail.currentExecution :=
       ArchiveDetail.currentExecution (ArchiveDetail.setup 3);
     ArchiveDetail.saving := false;
     ArchiveDetail.exporting := false |}.

(** A server that stores what it is sent and answers with the stored
    record. *)
Definition echo (c : ArchivedTestCase) (sent : ExecutionUpdateRequest)
    : ArchivedTestCase :=
  {| id := id c;
     original_case_id := original_case_id c;
     title := title c;
     description := description c;
     preconditions := preconditions c;
     test_steps := test_steps c;
     expected_result := expected_result c;
     module_name := module_name c;
     module_full_path := module_full_path c;
     priority := priority c;
     test_category := test_category c;
     design_method := design_method c;
     execution_status := Some (req_status sent);
     execution_comment := Some (req_comment sent);
     step_execution_results := Some (to_saved <$> req_step_results sent);
     updated_at := "2024-01-02T00:00:00";
     updated_by_name := Some "tester" |}.

Definition echo_server (cases : list ArchivedTestCase)
    (caseId : N) (sent : ExecutionUpdateRequest) : Reply ArchivedTestCase :=
  match List.find (λ c, N.eqb (id c) caseId) cases with
  | Some c => Resolved (echo c sent)
  | None => Rejected (Some "not found")
  end.

(** The drawer opened on [half_saved], the second row of a two-row
    list. *)
Definition drawer : ArchiveDetail.View :=
  ArchiveDetail.openRunDrawer half_saved (detail_view [fully_saved; half_saved]).

(** A listing of four modules; the second has no cases, the third has
    no [test_cases] at all. *)
Definition login_case : ProjectArchives.CaseItem :=
  {| ProjectArchives.tc_id := 11; ProjectArchives.tc_title := "login" |}.
Definition logout_case : ProjectArchives.CaseItem :=
  {| ProjectArchives.tc_id := 12; ProjectArchives.tc_title := "logout" |}.
Definition checkout_case : ProjectArchives.CaseItem :=
  {| ProjectArchives.tc_id := 41; ProjectArchives.tc_title := "checkout" |}.

Definition auth : ProjectArchives.ModuleItem :=
  {| ProjectArchives.mod_id := 1;
     ProjectArchives.mod_name := "auth";
     ProjectArchives.mod_test_cases := Some [login_case; logout_case] |}.
Definition empty : ProjectArchives.ModuleItem :=
  {| ProjectArchives.mod_id := 2;
     ProjectArchives.mod_name := "empty";
     ProjectArchives.mod_test_cases := Some [] |}.
Definition draft : ProjectArchives.ModuleItem :=
  {| ProjectArchives.mod_id := 3;
     ProjectArchives.mod_name := "draft";
     ProjectArchives.mod_test_cases := None |}.
Definition orders : ProjectArchives.ModuleItem :=
  {| ProjectArchives.mod_id := 4;
     ProjectArchives.mod_name := "orders";
     ProjectArchives.mod_test_cases := Some [checkout_case] |}.

Definition listing : list ProjectArchives.ModuleItem :=
  [auth; empty; draft; orders].

Definition closed_dialog : ProjectArchives.View :=
  {| ProjectArchives.createDialogVisible := false;
     ProjectArchives.createForm :=
       {| ProjectArchives.name := ""; ProjectArchives.description := "" |};
     ProjectArchives.creating := false;
     ProjectArchives.loadingCases := false;
     ProjectArchives.treeData := [];
     ProjectArchives.treeRef := None |}.

(** The create dialog filled in, with the given name and ticks on the
    tree built for [listing]. *)
Definition dialog (form_name : string) (marks : gset string) : ProjectArchives.View :=
  {| ProjectArchives.createDialogVisible := true;
     ProjectArchives.createForm :=
       {| ProjectArchives.name := form_name;
          ProjectArchives.description := "regression" |};
     ProjectArchives.creating := false;
     ProjectArchives.loadingCases := false;
     ProjectArchives.treeData := ProjectArchives.build_tree listing;
     ProjectArchives.treeRef :=
       Some {| ProjectArchives.data := ProjectArchives.build_tree listing;
               ProjectArchives.ticked := marks |} |}.

Definition created : ProjectArchive.t :=
  {| ProjectArchive.id := 9;
     ProjectArchive.name := "v1.0";
     ProjectArchive.description := Some "regression";
     ProjectArchive.status := "active";
     ProjectArchive.created_at := "2024-01-01T00:00:00";
     ProjectArchive.created_by_name := "tester";
     ProjectArchive.case_count := 1 |}.

(** A signed-in browser on the archives page. *)
Definition signed_in : Http.Browser :=
  {| Http.localStorage :=
       {[ "access_token" := "abc"; "refresh_token" := "def"; "theme" := "dark" ]};
     Http.location_href := "/projects/5/archives" |}.

(** A failed request to [path] answered with [code] and [body]. *)
Definition failure (path : string) (code : N) (body : Http.Data) : Http.AxiosError :=
  {| Http.response := Some {| Http.status := code; Http.data := body |};
     Http.request := true;
     Http.config := Some {| Http.url := Some path; Http.headers := ∅ |};
     Http.error_message := Http.Text "Request failed" |}.

Definition no_body : Http.Data :=
  {| Http.detail := None; Http.message := None |}.

(** Two archives of project 5. *)
Definition archives : list ProjectArchive.t :=
  [ {| ProjectArchive.id := 3;
       ProjectArchive.name := "v1.0";
       ProjectArchive.description := None;
       ProjectArchive.status := "active";
       ProjectArchive.created_at := "2024-01-01T00:00:00";
       ProjectArchive.created_by_name := "tester";
       ProjectArchive.case_count := 10 |};
    {| ProjectArchive.id := 4;
       ProjectArchive.name := "v1.1";
       ProjectArchive.description := None;
       ProjectArchive.status := "closed";
       ProjectArchive.created_at := "2024-02-01T00:00:00";
       ProjectArchive.created_by_name := "tester";
       ProjectArchive.case_count := 2 |} ].

(** The page of archive 3 as mounted, before anything is loaded. *)
Definition mounted : ArchiveDetail.Page :=
  {| ArchiveDetail.view := ArchiveDetail.setup 3; ArchiveDetail.loading := true |}.

(** Both steps marked passed, a note on step 2. *)
Definition step_edits : list ArchiveDetail.Edit :=
  [ ArchiveDetail.StepStatus 0 "passed";
    ArchiveDetail.StepStatus 1 "passed";
    ArchiveDetail.StepActual 1 "as expected" ].

(** The overall result set to failed, then the steps marked passed. *)
Definition failed_overall : ArchiveDetail.Execution :=
  ArchiveDetail.setComment "flaky"
    (ArchiveDetail.setStatus "failed" (ArchiveDetail.currentExecution drawer)).

Definition all_steps_passed : ArchiveDetail.Execution :=
  default failed_overall (ArchiveDetail.edits step_edits failed_overall).

End Sample.

(** * Properties *)

Local Open Scope list_scope.
Local Open Scope nat_scope.

(** ** Operators *)

Lemma or_truthy (x : Js.Nullable) (d : string) :
  Js.truthy x = true → Some (Js.or x d) = x.
Proof. by destruct x as [[|a s]|]. Qed.

Lemma or_falsy (x : Js.Nullable) (d : string) :
  Js.truthy x = false → Js.or x d = d.
Proof. by destruct x as [[|a s]|]. Qed.

Lemma String_of_nat_inj (i j : nat) :
  Js.String_of_nat i = Js.String_of_nat j → i = j.
Proof. apply (inj pretty). Qed.

(** ** [openRunDrawer] *)

Section seeding.
Import ArchiveDetail.
Variable row : ArchivedTestCase.

(** Keys outside the index range walked by the loop keep their entry. *)
Lemma forEach_seed_other (steps : list TestStep) :
  ∀ (idx0 : nat) (acc : gmap string StepResult) (k : string),
    (∀ i, idx0 < i ≤ idx0 + length steps → k ≠ Js.String_of_nat i) →
    Js.forEach (seed_step row) steps idx0 acc !! k = acc !! k.
Proof.
  induction steps as [|step steps IH]; intros idx0 acc k Hk; simpl; [done|].
  rewrite IH.
  - unfold seed_step. rewrite lookup_insert_ne; [done|].
    intros Heq. apply (Hk (idx0 + 1)); [simpl; lia | done].
  - intros i Hi. apply Hk. simpl. lia.
Qed.

(** Every index the loop walks ends up seeded from the saved entry of
    the same key, field by field. *)
Lemma forEach_seed_hit (steps : list TestStep) :
  ∀ (idx0 : nat) (acc : gmap string StepResult) (i : nat),
    idx0 < i ≤ idx0 + length steps →
    Js.forEach (seed_step row) steps idx0 acc !! Js.String_of_nat i =
      Some {| step_status :=
                Js.or (saved_at row (Js.String_of_nat i) ≫= saved_status) "skipped";
              step_actual :=
                Js.or (saved_at row (Js.String_of_nat i) ≫= saved_actual) "" |}.
Proof.
  induction steps as [|step steps IH]; intros idx0 acc i Hi; simpl in *; [lia|].
  destruct (decide (i = idx0 + 1)) as [->|Hne].
  - rewrite forEach_seed_other.
    + unfold seed_step. by rewrite lookup_insert_eq.
    + intros j Hj Heq. apply String_of_nat_inj in Heq. lia.
  - apply IH. lia.
Qed.

Lemma forEach_seed_dom (steps : list TestStep) :
  ∀ (idx0 : nat) (acc : gmap string StepResult),
    dom (Js.forEach (seed_step row) steps idx0 acc) =
      dom acc ∪ list_to_set (Js.String_of_nat <$> seq (S idx0) (length steps)).
Proof.
  induction steps as [|step steps IH]; intros idx0 acc; simpl.
  - set_solver.
  - rewrite IH. unfold seed_step. rewrite dom_insert_L, Nat.add_1_r. set_solver.
Qed.

Lemma openRunDrawer_dom (v : View) :
  dom (step_results (currentExecution (openRunDrawer row v))) =
    list_to_set (Js.String_of_nat <$> seq 1 (step_count row)).
Proof.
  unfold openRunDrawer, step_count; simpl.
  destruct (test_steps row) as [steps|]; simpl.
  - rewrite forEach_seed_dom. set_solver.
  - set_solver.
Qed.

Lemma openRunDrawer_lookup (v : View) (i : nat) :
  1 ≤ i ≤ step_count row →
  step_results (currentExecution (openRunDrawer row v)) !! Js.String_of_nat i =
    Some {| step_status :=
              Js.or (saved_at row (Js.String_of_nat i) ≫= saved_status) "skipped";
            step_actual :=
              Js.or (saved_at row (Js.String_of_nat i) ≫= saved_actual) "" |}.
Proof.
  unfold openRunDrawer, step_count; simpl.
  destruct (test_steps row) as [steps|]; simpl; [|lia].
  intros Hi. apply forEach_seed_hit. lia.
Qed.

End seeding.

Import ArchiveDetail.

(** C1 (as amended).  For every archived case with N steps — N the
    length of [test_steps], 0 when it is null — [openRunDrawer] leaves a
    draft whose [step_results] has exactly N entries, keyed by the
    strings of 1..N.  Entry i is seeded field by field from the saved
    result under key i: its status is the saved status when that is
    present and non-empty and ['skipped'] otherwise, its actual text is
    the saved text when present and non-empty and [''] otherwise.  So it
    is [{skipped, ''}] when nothing is saved under i, and it equals the
    saved result when that has a non-empty status and an actual text.
    The overall status is [execution_status], or ['skipped'] when that is
    unset or empty; the comment is [execution_comment], or [''] when
    unset. *)
Theorem openRunDrawer_seeds_draft (row : ArchivedTestCase) (v : View) :
  let draft := currentExecution (openRunDrawer row v) in
  let n := step_count row in
  size (step_results draft) = n
  ∧ dom (step_results draft) = list_to_set (Js.String_of_nat <$> seq 1 n)
  ∧ (∀ i, 1 ≤ i ≤ n →
       step_results draft !! Js.String_of_nat i =
         Some {| step_status :=
                   Js.or (saved_at row (Js.String_of_nat i) ≫= saved_status) "skipped";
                 step_actual :=
                   Js.or (saved_at row (Js.String_of_nat i) ≫= saved_actual) "" |})
  ∧ (∀ i, 1 ≤ i ≤ n →
       saved_at row (Js.String_of_nat i) = None →
       step_results draft !! Js.String_of_nat i =
         Some {| step_status := "skipped"; step_actual := "" |})
  ∧ (∀ i sv, 1 ≤ i ≤ n →
       saved_at row (Js.String_of_nat i) = Some sv →
       Js.truthy (saved_status sv) = true →
       is_Some (saved_actual sv) →
       to_saved <$> step_results draft !! Js.String_of_nat i = Some sv)
  ∧ status draft = Js.or (execution_status row) "skipped"
  ∧ comment draft = Js.or (execution_comment row) ""
  ∧ (execution_status row = None → status draft = "skipped")
  ∧ (execution_comment row = None → comment draft = "").
Proof.
  intros draft n.
  assert (Hdom : dom (step_results draft) =
                 list_to_set (Js.String_of_nat <$> seq 1 n))
    by apply openRunDrawer_dom.
  split_and!; try done.
  - rewrite <- size_dom, Hdom, size_list_to_set.
    + by rewrite length_fmap, length_seq.
    + apply (NoDup_fmap_2 _), NoDup_seq.
  - intros i Hi. by apply openRunDrawer_lookup.
  - intros i Hi Hnone. subst draft.
    rewrite openRunDrawer_lookup by done. by rewrite Hnone.
  - intros i [st ac] Hi Hsv Hst [a Ha]. subst draft.
    rewrite openRunDrawer_lookup by done. rewrite Hsv. simpl in *.
    destruct st as [[|c s]|]; try done. subst ac.
    unfold to_saved; simpl. by destruct a.
  - intros H. subst draft. simpl. by rewrite H.
  - intros H. subst draft. simpl. by rewrite H.
Qed.

Lemma openRunDrawer_seeds_draft_witness :
  let draft := currentExecution (openRunDrawer Sample.fully_saved (setup 1)) in
  size (step_results draft) = 2
  ∧ step_results draft !! "1" =
      Some {| step_status := "failed"; step_actual := "timeout" |}
  ∧ step_results draft !! "2" =
      Some {| step_status := "skipped"; step_actual := "" |}
  ∧ status draft = "failed"
  ∧ comment draft = "retry".
Proof.
  pose proof (openRunDrawer_seeds_draft Sample.fully_saved (setup 1))
    as (Hsize & _ & Hlookup & _ & _ & Hst & Hcm & _).
  split_and!.
  - exact Hsize.
  - exact (Hlookup 1 (conj (le_n 1) (le_S _ _ (le_n 1)))).
  - exact (Hlookup 2 (conj (le_S _ _ (le_n 1)) (le_n 2))).
  - exact Hst.
  - exact Hcm.
Defined.

(** C1 as worded fails: a saved result that exists but carries no
    status is not copied; the draft entry takes its note and the
    default status, so it is neither the saved result nor
    [{skipped, ''}]. *)
Lemma openRunDrawer_entry_is_not_saved_entry :
  let row := Sample.half_saved in
  let draft := currentExecution (openRunDrawer row (setup 1)) in
  step_count row = 2
  ∧ saved_at row "1" = Some {| saved_status := None; saved_actual := Some "timeout" |}
  ∧ step_results draft !! "1" =
      Some {| step_status := "skipped"; step_actual := "timeout" |}
  ∧ to_saved <$> step_results draft !! "1" ≠ saved_at row "1"
  ∧ step_results draft !! "1" ≠
      Some {| step_status := "skipped"; step_actual := "" |}.
Proof. vm_compute. by split_and!. Qed.

(** ** Binary64 arithmetic *)

(** The error of one division and one multiplication, in integers: a
    finite double is [m * 2^e] with [m] of 53 bits, and every bound
    below is between integers scaled by powers of two. *)

Section binary64.
Local Open Scope Z_scope.

Lemma digits2_bounds (p : positive) :
  2 ^ Z.pos (digits2_pos p) <= 2 * Z.pos p < 2 * 2 ^ Z.pos (digits2_pos p).
Proof.
  induction p as [p IH|p IH|]; simpl digits2_pos.
  - rewrite Pos2Z.inj_succ, Z.pow_succ_r by lia. lia.
  - rewrite Pos2Z.inj_succ, Z.pow_succ_r by lia. lia.
  - simpl. lia.
Qed.

Lemma digits2_unique (p : positive) (d : Z) :
  2 ^ (d - 1) <= Z.pos p < 2 ^ d → Z.pos (digits2_pos p) = d.
Proof.
  intros [Hlo Hhi]. pose proof (digits2_bounds p) as [Hb1 Hb2].
  assert (0 < d).
  { destruct (Z.le_gt_cases d 0) as [H|H]; [|done].
    rewrite (Z.pow_neg_r 2 (d - 1)) in Hlo by lia.
    destruct (Z.eq_dec d 0) as [->|]; [simpl in Hhi; lia|].
    rewrite Z.pow_neg_r in Hhi by lia. lia. }
  set (d' := Z.pos (digits2_pos p)) in *.
  assert (Hd' : 0 < d') by (subst d'; lia).
  destruct (Z.lt_trichotomy d' d) as [Hlt|[Heq|Hgt]]; [|done|].
  - assert (2 ^ d' <= 2 ^ (d - 1)) by (apply Z.pow_le_mono_r; lia).
    replace (2 ^ d') with (2 * 2 ^ (d' - 1)) in * by (rewrite <- Z.pow_succ_r by lia; f_equal; lia).
    replace (2 ^ d) with (2 * 2 ^ (d - 1)) in * by (rewrite <- Z.pow_succ_r by lia; f_equal; lia).
    lia.
  - assert (2 ^ d <= 2 ^ (d' - 1)) by (apply Z.pow_le_mono_r; lia).
    replace (2 ^ d') with (2 * 2 ^ (d' - 1)) in * by (rewrite <- Z.pow_succ_r by lia; f_equal; lia).
    lia.
Qed.

Lemma shr_1_m (mrs : shr_record) :
  0 <= shr_m mrs → shr_m (shr_1 mrs) = shr_m mrs / 2.
Proof.
  destruct mrs as [m r s]. cbn [shr_m]. intros Hm.
  destruct m as [|[p|p|]|p]; cbn [shr_1 shr_m]; try lia.
  - reflexivity.
  - apply Z.div_unique with 1; lia.
  - apply Z.div_unique with 0; lia.
  - reflexivity.
Qed.

Lemma iter_shr_m (p : positive) :
  ∀ mrs, 0 <= shr_m mrs →
    shr_m (SpecFloat.iter_pos shr_1 p mrs) = shr_m mrs / 2 ^ Z.pos p.
Proof.
  assert (Hnn : ∀ mrs, 0 <= shr_m mrs → 0 <= shr_m (shr_1 mrs)).
  { intros mrs H. rewrite shr_1_m by done. apply Z.div_pos; lia. }
  induction p as [p IH|p IH|]; intros mrs Hm; simpl SpecFloat.iter_pos.
  - assert (Hpow : 2 ^ Z.pos p~1 = 2 * 2 ^ Z.pos p * 2 ^ Z.pos p).
    { rewrite <- Z.mul_assoc, <- Z.pow_add_r, <- Z.pow_succ_r by lia. f_equal. lia. }
    assert (0 < 2 ^ Z.pos p) by (apply Z.pow_pos_nonneg; lia).
    rewrite IH, IH, shr_1_m; auto.
    + rewrite !Z.div_div by lia. f_equal. lia.
    + rewrite IH by auto. apply Z.div_pos; [auto|lia].
  - assert (Hpow : 2 ^ Z.pos p~0 = 2 ^ Z.pos p * 2 ^ Z.pos p).
    { rewrite <- Z.pow_add_r by lia. f_equal. lia. }
    assert (0 < 2 ^ Z.pos p) by (apply Z.pow_pos_nonneg; lia).
    rewrite IH, IH; auto.
    + rewrite !Z.div_div by lia. f_equal. lia.
    + rewrite IH by auto. apply Z.div_pos; [auto|lia].
  - rewrite shr_1_m by done. done.
Qed.

Lemma fexp_val (e : Z) : -1021 <= e → fexp 53 1024 e = e - 53.
Proof. intros H. unfold fexp, emin. lia. Qed.

Lemma shr_fexp_spec (p : positive) (e : Z) (l : location) :
  -1021 <= Z.pos (digits2_pos p) + e →
  53 <= Z.pos (digits2_pos p) →
  ∃ mrs,
    shr_fexp 53 1024 (Z.pos p) e l = (mrs, e + (Z.pos (digits2_pos p) - 53))
    ∧ shr_m mrs = Z.pos p / 2 ^ (Z.pos (digits2_pos p) - 53)
    ∧ (Z.pos (digits2_pos p) = 53 → mrs = shr_record_of_loc (Z.pos p) l).
Proof.
  intros Hrange Hd. unfold shr_fexp. cbn [Zdigits2].
  rewrite fexp_val by done.
  replace (Z.pos (digits2_pos p) + e - 53 - e) with (Z.pos (digits2_pos p) - 53) by lia.
  assert (Hm : shr_m (shr_record_of_loc (Z.pos p) l) = Z.pos p)
    by (destruct l as [|[]]; done).
  destruct (Z.pos (digits2_pos p) - 53) as [|n|n] eqn:En; [| |lia].
  - eexists. split_and!; [by rewrite Z.add_0_r | | done].
    rewrite Hm. simpl. by rewrite Z.div_1_r.
  - eexists. split_and!; [reflexivity| |lia].
    rewrite iter_shr_m by (rewrite Hm; lia). by rewrite Hm.
Qed.

Lemma round_nearest_even_cases (m : Z) (l : location) :
  round_nearest_even m l = m ∨ round_nearest_even m l = m + 1.
Proof.
  destruct l as [|[]]; simpl; auto. destruct (Z.even m); auto.
Qed.

Lemma binary_round_aux_exact (s : bool) (p : positive) (e : Z) :
  Z.pos (digits2_pos p) = 53 → -1074 <= e <= 971 →
  binary_round_aux 53 1024 s (Z.pos p) e loc_Exact = S754_finite s p e.
Proof.
  intros Hd He. unfold binary_round_aux.
  destruct (shr_fexp_spec p e loc_Exact) as (mrs & -> & _ & Hmrs); [lia..|].
  rewrite (Hmrs Hd). cbn [shr_record_of_loc shr_m loc_of_shr_record round_nearest_even].
  destruct (shr_fexp_spec p (e + (Z.pos (digits2_pos p) - 53)) loc_Exact)
    as (mrs' & -> & _ & Hmrs'); [lia..|].
  rewrite (Hmrs' Hd). cbn [shr_record_of_loc shr_m].
  rewrite Hd. replace (e + (53 - 53) + (53 - 53)) with e by lia.
  destruct (Z.leb_spec e (1024 - 53)); [done|lia].
Qed.

Lemma binary_round_aux_struct (s : bool) (p0 : positive) (e0 : Z) (l : location) :
  let d0 := Z.pos (digits2_pos p0) in
  let u := Z.pos p0 / 2 ^ (d0 - 53) in
  53 <= d0 → -1021 <= d0 + e0 → e0 + d0 - 53 + 1 <= 971 →
  ∃ m e,
    binary_round_aux 53 1024 s (Z.pos p0) e0 l = S754_finite s m e
    ∧ 2 ^ 52 <= Z.pos m < 2 ^ 53
    ∧ ((e = e0 + (d0 - 53) ∧ (Z.pos m = u ∨ Z.pos m = u + 1))
       ∨ (e = e0 + (d0 - 53) + 1 ∧ 2 * Z.pos m = u + 1)).
Proof.
  intros d0 u Hd Hlo Hhi. unfold binary_round_aux.
  destruct (shr_fexp_spec p0 e0 l) as (mrs & -> & Hm & _); [done..|].
  fold d0 in Hm |- *. fold u in Hm.
  assert (Hu : 2 ^ 52 <= u < 2 ^ 53).
  { pose proof (digits2_bounds p0) as [Hb1 Hb2]. fold d0 in Hb1, Hb2.
    assert (HN : 0 < 2 ^ (d0 - 53)) by (apply Z.pow_pos_nonneg; lia).
    assert (Hsplit : 2 ^ d0 = 2 ^ 53 * 2 ^ (d0 - 53)).
    { rewrite <- Z.pow_add_r by lia. f_equal. lia. }
    subst u. split.
    - apply Z.div_le_lower_bound; [done|].
      change (2 ^ 53) with (2 * 2 ^ 52) in Hsplit. lia.
    - apply Z.div_lt_upper_bound; [done|]. lia. }
  set (r := round_nearest_even (shr_m mrs) (loc_of_shr_record mrs)).
  assert (Hr : r = u ∨ r = u + 1).
  { subst r. rewrite Hm. apply round_nearest_even_cases. }
  destruct r as [|pr|pr] eqn:Er; [lia| |lia].
  destruct (Z.eq_dec (Z.pos pr) (2 ^ 53)) as [Htop|Hntop].
  - assert (Hd54 : Z.pos (digits2_pos pr) = 54).
    { apply digits2_unique. rewrite Htop. simpl. lia. }
    destruct (shr_fexp_spec pr (e0 + (d0 - 53)) loc_Exact)
      as (mrs' & -> & Hm' & _); [lia..|].
    rewrite Hd54 in *. rewrite Htop in Hm'.
    change (2 ^ 53 / 2 ^ (54 - 53)) with (2 ^ 52) in Hm'. rewrite Hm'.
    change (2 ^ 52) with (Z.pos 4503599627370496).
    cbv iota beta.
    destruct (Z.leb_spec (e0 + (d0 - 53) + (54 - 53)) (1024 - 53)); [|lia].
    eexists _, _. split; [reflexivity|]. split; [simpl; lia|].
    right. split; [lia|]. simpl in *. lia.
  - assert (Hd53 : Z.pos (digits2_pos pr) = 53).
    { apply digits2_unique. change (53 - 1) with 52. lia. }
    destruct (shr_fexp_spec pr (e0 + (d0 - 53)) loc_Exact)
      as (mrs' & -> & Hm' & _); [lia..|].
    rewrite Hd53 in *. change (2 ^ (53 - 53)) with 1 in Hm'.
    rewrite Z.div_1_r in Hm'. rewrite Hm'. cbv iota beta.
    destruct (Z.leb_spec (e0 + (d0 - 53) + (53 - 53)) (1024 - 53)); [|lia].
    eexists _, _. split; [reflexivity|]. split; [lia|].
    left. split; [lia|]. lia.
Qed.

Lemma iter_xO_val (k : positive) :
  ∀ m, Z.pos (Pos.iter xO m k) = Z.pos m * 2 ^ Z.pos k.
Proof.
  induction k as [k IH|k IH|]; intros m; cbn [Pos.iter].
  - rewrite Pos2Z.inj_xO, IH, IH.
    replace (Z.pos k~1) with (Z.pos k + Z.pos k + 1) by lia.
    rewrite !Z.pow_add_r by lia. lia.
  - rewrite IH, IH.
    replace (Z.pos k~0) with (Z.pos k + Z.pos k) by lia.
    rewrite !Z.pow_add_r by lia. lia.
  - lia.
Qed.

(** A positive integer below [2^53] converts without rounding, to a
    mantissa of 53 bits. *)
Lemma of_Z_canonical (p : Z) :
  0 < p < 2 ^ 53 →
  ∃ m e,
    Number.of_Z p = S754_finite false m e
    ∧ 2 ^ 52 <= Z.pos m < 2 ^ 53
    ∧ -52 <= e <= 0
    ∧ Z.pos m = p * 2 ^ (- e).
Proof.
  intros Hp. destruct p as [|p|p]; [lia| |lia].
  unfold Number.of_Z, Number.prec, Number.emax, binary_normalize, binary_round.
  pose proof (digits2_bounds p) as [Hb1 Hb2].
  set (d := Z.pos (digits2_pos p)) in *.
  assert (Hd : 1 <= d <= 53).
  { split; [lia|]. destruct (Z_le_gt_dec d 53) as [|Hgt]; [done|].
    assert (2 ^ 54 <= 2 ^ d) by (apply Z.pow_le_mono_r; lia). lia. }
  rewrite fexp_val by lia. unfold shl_align.
  replace (d + 0 - 53 - 0) with (d - 53) by lia.
  destruct (d - 53) as [|k|k] eqn:Ek; [|lia|].
  - assert (d = 53) as Hd53 by lia.
    rewrite binary_round_aux_exact by (fold d; lia).
    eexists _, _. split; [reflexivity|]. rewrite Hd53 in *.
    change (2 ^ 53) with (2 * 2 ^ 52) in *. simpl (2 ^ (-0)). lia.
  - assert (Hk : Z.pos k = 53 - d) by lia.
    assert (Hpow : 2 ^ d * 2 ^ Z.pos k = 2 ^ 53).
    { rewrite <- Z.pow_add_r by lia. f_equal. lia. }
    assert (Hpk : 0 < 2 ^ Z.pos k) by (apply Z.pow_pos_nonneg; lia).
    assert (Hm : 2 ^ 52 <= Z.pos (Pos.iter xO p k) < 2 ^ 53).
    { rewrite iter_xO_val. change (2 ^ 53) with (2 * 2 ^ 52) in *. nia. }
    rewrite binary_round_aux_exact.
    + eexists _, _. split; [reflexivity|]. split; [done|]. split; [lia|].
      rewrite iter_xO_val. f_equal. f_equal. lia.
    + apply digits2_unique. change (53 - 1) with 52. done.
    + lia.
Qed.

Lemma of_nat_100 :
  Number.of_nat 100 = S754_finite false 7036874417766400 (-46).
Proof. reflexivity. Qed.

Lemma of_nat_0 : Number.of_nat 0 = S754_zero false.
Proof. reflexivity. Qed.

Lemma digits2_range (p : positive) (a b : Z) :
  0 <= a → 2 ^ a <= Z.pos p < 2 ^ b → a + 1 <= Z.pos (digits2_pos p) <= b.
Proof.
  intros Ha [H1 H2]. pose proof (digits2_bounds p) as [Hb1 Hb2].
  set (d := Z.pos (digits2_pos p)) in *. split.
  - destruct (Z_le_gt_dec (a + 1) d) as [|Hgt]; [done|].
    assert (2 ^ d <= 2 ^ a) by (apply Z.pow_le_mono_r; lia). lia.
  - destruct (Z_le_gt_dec d b) as [|Hgt]; [done|].
    assert (2 ^ (b + 1) <= 2 ^ d) by (apply Z.pow_le_mono_r; lia).
    assert (0 <= b).
    { destruct (Z_le_gt_dec 0 b); [done|]. rewrite Z.pow_neg_r in H2; lia. }
    rewrite Z.pow_add_r in * by lia. lia.
Qed.

(** Rounding [p0 * 2^e0], which approximates [(A / B) * 2^e0] from below
    within one unit, gives a 53-bit mantissa within one unit of its own
    last place. *)
Lemma binary_round_aux_enclosure
    (s : bool) (p0 : positive) (e0 : Z) (l : location) (A B : Z) :
  let d0 := Z.pos (digits2_pos p0) in
  0 < B → Z.pos p0 * B <= A <= (Z.pos p0 + 1) * B →
  53 <= d0 → -1021 <= d0 + e0 → e0 + d0 - 53 + 1 <= 971 →
  ∃ m e,
    binary_round_aux 53 1024 s (Z.pos p0) e0 l = S754_finite s m e
    ∧ 2 ^ 52 <= Z.pos m < 2 ^ 53
    ∧ e0 + (d0 - 53) <= e <= e0 + (d0 - 53) + 1
    ∧ Z.abs (Z.pos m * 2 ^ (e - e0) * B - A) <= 2 ^ (e - e0) * B.
Proof.
  intros d0 HB HA Hd Hlo Hhi.
  destruct (binary_round_aux_struct s p0 e0 l) as (m & e & Heq & Hm & Hcases);
    [done..|].
  fold d0 in Hcases. exists m, e. split; [done|]. split; [done|].
  set (N := 2 ^ (d0 - 53)) in *.
  assert (HN : 0 < N) by (apply Z.pow_pos_nonneg; lia).
  pose proof (Z.div_mod (Z.pos p0) N ltac:(lia)) as Hdm.
  pose proof (Z.mod_pos_bound (Z.pos p0) N HN) as Hrr.
  set (u := Z.pos p0 / N) in *. set (rr := Z.pos p0 mod N) in *.
  assert (H1 : u * N * B <= Z.pos p0 * B) by nia.
  assert (H2 : (Z.pos p0 + 1) * B <= (u + 1) * N * B) by nia.
  assert (HNB : 0 < N * B) by nia.
  destruct Hcases as [[-> Hmu]|[-> Hmu]].
  - split; [lia|]. replace (e0 + (d0 - 53) - e0) with (d0 - 53) by lia.
    fold N. destruct Hmu as [-> | ->]; nia.
  - split; [lia|]. replace (e0 + (d0 - 53) + 1 - e0) with (d0 - 53 + 1) by lia.
    rewrite Z.pow_add_r by lia. fold N. change (2 ^ 1) with 2.
    assert (Z.pos m * (N * 2) * B = (u + 1) * N * B) by nia. nia.
Qed.

Lemma div_accurate (p t : Z) :
  0 < p → p <= t → t < 2 ^ 53 →
  ∃ m1 e1,
    Number.div (Number.of_Z p) (Number.of_Z t) = S754_finite false m1 e1
    ∧ 2 ^ 52 <= Z.pos m1 < 2 ^ 53
    ∧ -105 <= e1 <= -51
    ∧ Z.abs (Z.pos m1 * t - p * 2 ^ (- e1)) <= t.
Proof.
  intros Hp Hpt Ht.
  destruct (of_Z_canonical p) as (mp & ep & -> & Hmp & Hep & Hvp); [lia|].
  destruct (of_Z_canonical t) as (mt & et & -> & Hmt & Het & Hvt); [lia|].
  set (a := 2 ^ (- ep)) in *. set (b := 2 ^ (- et)) in *.
  assert (Ha : 0 < a) by (apply Z.pow_pos_nonneg; lia).
  assert (Hb : 0 < b) by (apply Z.pow_pos_nonneg; lia).
  assert (Hle : ep <= et).
  { destruct (Z_le_gt_dec ep et) as [|Hgt]; [done|].
    assert (Hba : b = a * 2 ^ (ep - et)).
    { subst a b. rewrite <- Z.pow_add_r by lia. f_equal. lia. }
    assert (2 ^ 1 <= 2 ^ (ep - et)) by (apply Z.pow_le_mono_r; lia).
    change (2 ^ 1) with 2 in *. change (2 ^ 53) with (2 * 2 ^ 52) in *. nia. }
  unfold Number.div, Number.prec, Number.emax, SFdiv, SFdiv_core_binary.
  cbn [Zdigits2 xorb].
  rewrite (digits2_unique mp 53), (digits2_unique mt 53)
    by (change (53 - 1) with 52; lia).
  rewrite fexp_val by lia.
  replace (53 + ep - (53 + et) - 53) with (ep - et - 53) by lia.
  rewrite Z.min_l by lia.
  replace (ep - et - (ep - et - 53)) with 53 by lia. cbv zeta iota.
  rewrite Z.shiftl_mul_pow2 by lia.
  pose proof (Z_div_mod (Z.pos mp * 2 ^ 53) (Z.pos mt) ltac:(lia)) as Hdm.
  destruct (Z.div_eucl (Z.pos mp * 2 ^ 53) (Z.pos mt)) as [q r].
  destruct Hdm as [Hq Hr].
  assert (Hqb : 2 ^ 52 <= q < 2 ^ 54).
  { change (2 ^ 54) with (2 * 2 ^ 53) in *.
    change (2 ^ 53) with (2 * 2 ^ 52) in *. nia. }
  destruct q as [|q|q]; [lia| |lia].
  pose proof (digits2_range q 52 54 ltac:(lia) Hqb) as Hdq.
  destruct (binary_round_aux_enclosure false q (ep - et - 53)
              (new_location (Z.pos mt) r) (Z.pos mp * 2 ^ 53) (Z.pos mt))
    as (m1 & e1 & -> & Hm1 & He1 & Herr); [lia|nia|lia..|].
  exists m1, e1. split; [done|]. split; [done|]. split; [lia|].
  set (K := 2 ^ (e1 - (ep - et - 53))) in *. set (E1 := 2 ^ (- e1)).
  assert (HK : 0 < K) by (apply Z.pow_pos_nonneg; lia).
  assert (HE1 : 0 < E1) by (apply Z.pow_pos_nonneg; lia).
  assert (Hrel : K * b * E1 = a * 2 ^ 53).
  { subst K b E1 a. rewrite <- !Z.pow_add_r by lia. f_equal. lia. }
  rewrite Hvp, Hvt in Herr.
  assert (Hfac : Z.pos m1 * K * (t * b) - p * a * 2 ^ 53
                 = K * b * (Z.pos m1 * t - p * E1)).
  { rewrite Z.mul_sub_distr_l.
    replace (K * b * (p * E1)) with (p * (K * b * E1)) by ring.
    rewrite Hrel. ring. }
  rewrite Hfac in Herr. rewrite Z.abs_mul in Herr.
  rewrite (Z.abs_eq (K * b)) in Herr by nia.
  replace (K * (t * b)) with (K * b * t) in Herr by ring.
  apply Z.mul_le_mono_pos_l in Herr; [done|nia].
Qed.

Lemma mul_100_accurate (m1 : positive) (e1 : Z) :
  2 ^ 52 <= Z.pos m1 < 2 ^ 53 → -105 <= e1 <= -51 →
  ∃ m2 e2,
    Number.mul (S754_finite false m1 e1) (Number.of_nat 100)
      = S754_finite false m2 e2
    ∧ e2 <= -43
    ∧ Z.abs (Z.pos m2 * 2 ^ (- e1) - 100 * Z.pos m1 * 2 ^ (- e2))
      <= 2 ^ (- e1).
Proof.
  intros Hm1 He1. rewrite of_nat_100.
  unfold Number.mul, Number.prec, Number.emax, SFmul. cbn [xorb].
  set (c := 7036874417766400%positive).
  assert (Hc : Z.pos c = 100 * 2 ^ 46) by reflexivity.
  assert (Hprod : 2 ^ 104 <= Z.pos (m1 * c) < 2 ^ 106).
  { rewrite Pos2Z.inj_mul, Hc.
    lia. }
  pose proof (digits2_range (m1 * c) 104 106 ltac:(lia) Hprod) as Hd.
  destruct (binary_round_aux_enclosure false (m1 * c) (e1 + -46) loc_Exact
              (Z.pos (m1 * c)) 1)
    as (m2 & e2 & -> & Hm2 & He2 & Herr); [lia|lia|lia..|].
  exists m2, e2. split; [done|]. split; [lia|].
  set (K := 2 ^ (e2 - (e1 + -46))) in *.
  set (E1 := 2 ^ (- e1)). set (E2 := 2 ^ (- e2)).
  assert (HK : 0 < K) by (apply Z.pow_pos_nonneg; lia).
  assert (HE1 : 0 < E1) by (apply Z.pow_pos_nonneg; lia).
  assert (HE2 : 0 < E2) by (apply Z.pow_pos_nonneg; lia).
  assert (Hrel : K * E2 = 2 ^ 46 * E1).
  { subst K E1 E2. rewrite <- !Z.pow_add_r by lia. f_equal. lia. }
  rewrite Pos2Z.inj_mul, Hc, !Z.mul_1_r in Herr.
  assert (H46 : 0 < 2 ^ 46) by done.
  apply (Z.mul_le_mono_pos_l _ _ (2 ^ 46) H46).
  rewrite <- (Z.abs_eq (2 ^ 46)) at 1 by lia. rewrite <- Z.abs_mul.
  replace (2 ^ 46 * (Z.pos m2 * E1 - 100 * Z.pos m1 * E2))
    with (E2 * (Z.pos m2 * K - Z.pos m1 * (100 * 2 ^ 46))).
  2:{ rewrite !Z.mul_sub_distr_l.
      replace (E2 * (Z.pos m2 * K)) with (Z.pos m2 * (K * E2)) by ring.
      rewrite Hrel. ring. }
  rewrite Z.abs_mul, (Z.abs_eq E2) by lia. rewrite <- Hrel.
  rewrite (Z.mul_comm K E2). apply Z.mul_le_mono_nonneg_l; lia.
Qed.

Lemma round_half_up_near (m e : Z) :
  0 <= m → e < 0 →
  let n := Number.round_half_up m e in
  0 <= n ∧ 2 * m - 2 ^ (- e) < 2 ^ (- e) * (2 * n) <= 2 * m + 2 ^ (- e).
Proof.
  intros Hm He n. subst n. unfold Number.round_half_up.
  destruct (Z.leb_spec 0 e) as [|_]; [lia|].
  replace (1 - e) with (- e + 1) by lia.
  rewrite Z.pow_add_r by lia. change (2 ^ 1) with 2.
  set (E := 2 ^ (- e)).
  assert (HE : 0 < E) by (apply Z.pow_pos_nonneg; lia).
  pose proof (Z.div_mod (2 * m + E) (E * 2) ltac:(lia)) as Hdm.
  pose proof (Z.mod_pos_bound (2 * m + E) (E * 2) ltac:(lia)) as Hr.
  split; [apply Z.div_pos; lia|]. lia.
Qed.

(** From the two rounding errors to the printed tenths. *)
Lemma tenths_near (p t m1 m2 E1 E2 n : Z) :
  0 < p → p <= t → t < 2 ^ 32 →
  2 ^ 51 <= E1 → 2 ^ 43 <= E2 →
  Z.abs (m1 * t - p * E1) <= t →
  Z.abs (m2 * E1 - 100 * m1 * E2) <= E1 →
  2 * (m2 * 10) - E2 < E2 * (2 * n) <= 2 * (m2 * 10) + E2 →
  2 * Z.abs (n * t - 1000 * p) <= t.
Proof.
  intros Hp Hpt Ht HE1 HE2 Ha Hb Hn.
  set (A := m1 * t - p * E1) in *. set (B := m2 * E1 - 100 * m1 * E2) in *.
  set (D := m2 * t - 100 * p * E2).
  assert (HD : E1 * D = t * B + 100 * E2 * A) by (subst A B D; ring).
  assert (HtB : Z.abs (t * B) <= t * E1).
  { rewrite Z.abs_mul, (Z.abs_eq t) by lia. apply Z.mul_le_mono_nonneg_l; lia. }
  assert (HEA : Z.abs (100 * E2 * A) <= 100 * E2 * t).
  { rewrite Z.abs_mul, (Z.abs_eq (100 * E2)) by lia.
    apply Z.mul_le_mono_nonneg_l; lia. }
  assert (HED : Z.abs (E1 * D) <= t * E1 + 100 * E2 * t) by lia.
  assert (H1 : 40 * t * E1 < E2 * E1) by (apply Z.mul_lt_mono_pos_r; lia).
  assert (H2 : 4000 * t * E2 <= E1 * E2) by (apply Z.mul_le_mono_nonneg_r; lia).
  set (X := n * t - 1000 * p).
  assert (HX : E2 * (2 * X) = t * (E2 * (2 * n)) - 2000 * p * E2)
    by (subst X; ring).
  assert (HDt : 20 * D = t * (2 * (m2 * 10)) - 2000 * p * E2)
    by (subst D; ring).
  assert (Hn1 : t * (E2 * (2 * n)) <= t * (2 * (m2 * 10) + E2))
    by (apply Z.mul_le_mono_nonneg_l; lia).
  assert (Hn2 : t * (2 * (m2 * 10) - E2 + 1) <= t * (E2 * (2 * n)))
    by (apply Z.mul_le_mono_nonneg_l; lia).
  rewrite Z.mul_add_distr_l in Hn1.
  rewrite Z.mul_add_distr_l, Z.mul_sub_distr_l in Hn2.
  assert (Hup : E2 * (2 * X) - E2 * t <= 20 * D) by lia.
  assert (Hlo : 20 * D + t <= E2 * (2 * X) + E2 * t) by lia.
  assert (HE1D : E1 * (20 * D) = 20 * (E1 * D)) by ring.
  destruct (Z_le_gt_dec (2 * X) t) as [Hle|Hgt].
  - destruct (Z_le_gt_dec (- t) (2 * X)) as [Hge|Hlt]; [lia|].
    exfalso.
    assert (H3 : E2 * (2 * X + t) <= E2 * (- 1))
      by (apply Z.mul_le_mono_nonneg_l; lia).
    rewrite Z.mul_add_distr_l in H3.
    assert (H4 : E1 * (20 * D) <= E1 * (- E2))
      by (apply Z.mul_le_mono_nonneg_l; lia).
    rewrite Z.mul_opp_r in H4. lia.
  - exfalso.
    assert (H3 : E2 * 1 <= E2 * (2 * X - t))
      by (apply Z.mul_le_mono_nonneg_l; lia).
    rewrite Z.mul_sub_distr_l in H3.
    assert (H4 : E1 * E2 <= E1 * (20 * D))
      by (apply Z.mul_le_mono_nonneg_l; lia).
    lia.
Qed.

(** The percentage as an integer of tenths. *)
Lemma percent_tenths (p t : nat) :
  (0 < p)%nat → (p <= t)%nat → Z.of_nat t < 2 ^ 32 →
  ∃ n : Z,
    Number.toFixed 1 (percent p t) = Number.fixed 1 n
    ∧ 0 <= n
    ∧ 2 * Z.abs (n * Z.of_nat t - 1000 * Z.of_nat p) <= Z.of_nat t.
Proof.
  intros Hp Hpt Ht. unfold percent, Number.of_nat at 1 2.
  destruct (div_accurate (Z.of_nat p) (Z.of_nat t))
    as (m1 & e1 & -> & Hm1 & He1 & Ha); [lia..|].
  destruct (mul_100_accurate m1 e1) as (m2 & e2 & -> & He2 & Hb); [done..|].
  cbn [Number.toFixed]. change (10 ^ Z.of_nat 1) with 10.
  pose proof (round_half_up_near (Z.pos m2 * 10) e2 ltac:(lia) ltac:(lia))
    as [Hn0 Hn].
  exists (Number.round_half_up (Z.pos m2 * 10) e2).
  split; [reflexivity|]. split; [done|].
  apply (tenths_near _ _ (Z.pos m1) (Z.pos m2) (2 ^ (- e1)) (2 ^ (- e2)));
    try done; try lia.
  - apply Z.pow_le_mono_r; lia.
  - apply Z.pow_le_mono_r; lia.
Qed.

Lemma percent_of_none (t : nat) :
  (0 < t)%nat → Z.of_nat t < 2 ^ 53 →
  Number.toFixed 1 (percent 0 t) = Number.fixed 1 0.
Proof.
  intros Ht Hb. unfold percent. rewrite of_nat_0. unfold Number.of_nat at 1.
  destruct (of_Z_canonical (Z.of_nat t)) as (m & e & -> & _); [lia|].
  reflexivity.
Qed.

End binary64.

(** ** Printing with one decimal *)

Lemma length_append (a b : string) :
  String.length (a +:+ b) = String.length a + String.length b.
Proof. induction a as [|c a IH]; simpl; [done|]. by rewrite IH. Qed.

Lemma append_assoc (a b c : string) : (a +:+ b) +:+ c = a +:+ (b +:+ c).
Proof.
  induction a as [|x a IH]; [done|].
  change (String x ((a +:+ b) +:+ c) = String x (a +:+ (b +:+ c))).
  by rewrite IH.
Qed.

Lemma substring_all (b : string) : String.substring 0 (String.length b) b = b.
Proof. induction b as [|c b IH]; simpl; [done|]. by rewrite IH. Qed.

Lemma substring_append_l (a b : string) :
  String.substring 0 (String.length a) (a +:+ b) = a.
Proof.
  induction a as [|c a IH]; simpl; [by destruct b|]. by rewrite IH.
Qed.

Lemma substring_append_r (a b : string) :
  String.substring (String.length a) (String.length b) (a +:+ b) = b.
Proof.
  induction a as [|c a IH]; simpl; [apply substring_all|done].
Qed.

Lemma pretty_N_go_append (x : N) :
  ∀ s, pretty_N_go x s = pretty_N_go x "" +:+ s.
Proof.
  induction (N.lt_wf_0 x) as [x _ IH]. intros s.
  destruct (decide (x = 0)%N) as [->|Hx]; [by rewrite !pretty_N_go_0|].
  rewrite !(pretty_N_go_step x) by lia.
  assert (Hlt : (x `div` 10 < x)%N) by (apply N.div_lt; lia).
  rewrite (IH _ Hlt (String _ s)), (IH _ Hlt (String _ "")).
  by rewrite append_assoc.
Qed.

Lemma pretty_N_digit (d : N) :
  (d < 10)%N → pretty d = String (pretty_N_char d) "".
Proof.
  intros Hd. unfold pretty, pretty_N.
  destruct (decide (d = 0)%N) as [->|Hd0]; [done|].
  rewrite pretty_N_go_step by lia.
  rewrite N.div_small, N.mod_small by done. apply pretty_N_go_0.
Qed.

Lemma pretty_N_split (n : N) :
  (10 ≤ n)%N → pretty n = pretty (n `div` 10)%N +:+ pretty (n `mod` 10)%N.
Proof.
  intros Hn.
  assert (Hq : (0 < n `div` 10)%N).
  { apply N.div_str_pos. lia. }
  rewrite (pretty_N_digit (n `mod` 10)) by (apply N.mod_lt; lia).
  unfold pretty at 1 2, pretty_N.
  rewrite !decide_False by lia.
  rewrite pretty_N_go_step by lia. apply pretty_N_go_append.
Qed.

Lemma pretty_N_length (n : N) : 1 ≤ String.length (pretty n).
Proof.
  destruct (decide (n < 10)%N) as [Hn|Hn].
  - by rewrite pretty_N_digit.
  - rewrite pretty_N_split, length_append by lia.
    rewrite (pretty_N_digit (n `mod` 10)) by (apply N.mod_lt; lia).
    simpl. lia.
Qed.

(** [Number.fixed 1] prints the tenths after the point and the rest
    before it. *)
Lemma fixed_1_digits (n : N) :
  Number.fixed 1 (Z.of_N n)
  = pretty (n `div` 10)%N +:+ "." +:+ pretty (n `mod` 10)%N.
Proof.
  unfold Number.fixed. cbv zeta. rewrite N2Z.id.
  destruct (decide (n < 10)%N) as [Hn|Hn].
  - rewrite N.div_small, N.mod_small by done.
    rewrite (pretty_N_digit n) by done. reflexivity.
  - rewrite (pretty_N_split n) by lia.
    set (a := pretty (n `div` 10)%N).
    pose proof (pretty_N_length (n `div` 10)) as Ha. fold a in Ha.
    rewrite (pretty_N_digit (n `mod` 10)) by (apply N.mod_lt; lia).
    set (b := String (pretty_N_char (n `mod` 10)) "").
    rewrite length_append. change (String.length b) with 1.
    destruct (Nat.leb_spec (String.length a + 1) 1) as [|_]; [lia|].
    rewrite length_append. change (String.length b) with 1.
    replace (String.length a + 1 - 1) with (String.length a) by lia.
    rewrite substring_append_l.
    change (String.substring (String.length a) 1 (a +:+ b))
      with (String.substring (String.length a) (String.length b) (a +:+ b)).
    by rewrite substring_append_r.
Qed.

(** The printed rate, for every list a JavaScript array can hold. *)
Lemma passRate_tenths (p t : nat) :
  0 < t → p ≤ t → (Z.of_nat t < 2 ^ 32)%Z →
  ∃ n : nat,
    Number.toFixed 1 (percent p t)
      = pretty (n `div` 10) +:+ "." +:+ pretty (n `mod` 10)
    ∧ 2 * (n * t) ≤ 2 * (1000 * p) + t
    ∧ 2 * (1000 * p) ≤ 2 * (n * t) + t.
Proof.
  intros Ht Hpt Hb.
  assert (Hfmt : ∀ n : nat,
    Number.fixed 1 (Z.of_nat n)
    = pretty (n `div` 10) +:+ "." +:+ pretty (n `mod` 10)).
  { intros n. rewrite <- nat_N_Z, fixed_1_digits.
    unfold pretty at 3 4, pretty_nat.
    by rewrite Nat2N.inj_div, Nat2N.inj_mod. }
  destruct (decide (p = 0)) as [->|Hp].
  - exists 0. rewrite percent_of_none by lia.
    split; [apply (Hfmt 0)|]. lia.
  - destruct (percent_tenths p t) as (n & Heq & Hn & Herr); [lia..|].
    exists (Z.to_nat n). rewrite Heq.
    rewrite <- (Z2Nat.id n) in Heq, Herr |- * by done.
    rewrite Hfmt, Nat2Z.id. split; [done|]. lia.
Qed.

(** ** [stats] *)

Lemma strict_eq_true (x : Js.Nullable) (s : string) :
  Js.strict_eq x s = true ↔ x = Some s.
Proof.
  destruct x as [y|]; simpl; [|done].
  rewrite String.eqb_eq. naive_solver.
Qed.

Lemma count_status_filter (bucket : string) (cases : list ArchivedTestCase) :
  count_status bucket cases =
    length (filter (λ c, execution_status c = Some bucket) cases).
Proof.
  unfold count_status.
  induction cases as [|c cases IH]; [done|].
  rewrite filter_cons. simpl.
  destruct (Js.strict_eq (execution_status c) bucket) eqn:E.
  - apply strict_eq_true in E. rewrite decide_True by done. simpl. by rewrite IH.
  - rewrite decide_False; [done|].
    intros H. apply strict_eq_true in H. congruence.
Qed.

(** The four buckets and the rest split the list. *)
Lemma buckets_partition (cases : list ArchivedTestCase) :
  length cases =
    length (filter (λ c, execution_status c = Some "passed") cases)
    + length (filter (λ c, execution_status c = Some "failed") cases)
    + length (filter (λ c, execution_status c = Some "blocked") cases)
    + length (filter (λ c, execution_status c = Some "skipped") cases)
    + length (filter (λ c, execution_status c ∉
                [Some "passed"; Some "failed"; Some "blocked"; Some "skipped"])
                cases).
Proof.
  induction cases as [|c cases IH]; [done|].
  rewrite !filter_cons.
  repeat case_decide; simpl; try lia;
    exfalso; set_solver.
Qed.

(** The rate is a function of the two counts. *)
Lemma passRate_unfold (v : View) :
  passRate (stats v) =
    if 0 <? total (stats v)
    then Number.toFixed 1 (percent (passed (stats v)) (total (stats v)))
    else "0.0".
Proof. reflexivity. Qed.

Lemma passed_le_total (v : View) : passed (stats v) ≤ total (stats v).
Proof.
  pose proof (buckets_partition (testCases v)) as Hsum.
  pose proof (count_status_filter "passed" (testCases v)) as Hp.
  change (count_status "passed" (testCases v)) with (passed (stats v)) in Hp.
  change (total (stats v)) with (length (testCases v)). lia.
Qed.

(** C2 (as amended).  For every list of archived cases: [total] is its
    length; each of [passed], [failed], [blocked], [skipped] is the
    number of cases whose [execution_status] is exactly that word; a
    case with any other status, or none, is in no bucket and still in
    [total]; [passRate] is ["0.0"] for an empty list.  For a list that
    is not empty (and that an array can hold: fewer than [2^32] cases),
    [passRate] is the double [(passed / total) * 100] printed with one
    decimal: the digits of [n / 10], a point, and the digit [n mod 10],
    for a number [n] of tenths within half a tenth of the exact
    percentage [1000 * passed / total] — the nearest tenth, and either
    neighbour when the exact percentage lies half-way between two.  Six
    passed out of ten give ["60.0"]. *)
Theorem stats_counts_and_rate (v : View) :
  let s := stats v in
  let cases := testCases v in
  let in_bucket (b : string) :=
    length (filter (λ c, execution_status c = Some b) cases) in
  total s = length cases
  ∧ passed s = in_bucket "passed"
  ∧ failed s = in_bucket "failed"
  ∧ blocked s = in_bucket "blocked"
  ∧ skipped s = in_bucket "skipped"
  ∧ total s =
      passed s + failed s + blocked s + skipped s
      + length (filter (λ c, execution_status c ∉
                  [Some "passed"; Some "failed"; Some "blocked"; Some "skipped"])
                  cases)
  ∧ (total s = 0 →
       passRate s = "0.0"
       ∧ passed s = 0 ∧ failed s = 0 ∧ blocked s = 0 ∧ skipped s = 0)
  ∧ (0 < total s → (Z.of_nat (total s) < 2 ^ 32)%Z →
       ∃ n : nat,
         passRate s = pretty (n `div` 10) +:+ "." +:+ pretty (n `mod` 10)
         ∧ 2 * (n * total s) ≤ 2 * (1000 * passed s) + total s
         ∧ 2 * (1000 * passed s) ≤ 2 * (n * total s) + total s)
  ∧ (total s = 10 → passed s = 6 → passRate s = "60.0").
Proof.
  intros s cases in_bucket.
  assert (Hp : passed s = in_bucket "passed") by apply count_status_filter.
  assert (Hf : failed s = in_bucket "failed") by apply count_status_filter.
  assert (Hb : blocked s = in_bucket "blocked") by apply count_status_filter.
  assert (Hs : skipped s = in_bucket "skipped") by apply count_status_filter.
  assert (Hsum : total s =
      passed s + failed s + blocked s + skipped s
      + length (filter (λ c, execution_status c ∉
                  [Some "passed"; Some "failed"; Some "blocked"; Some "skipped"])
                  cases)).
  { rewrite Hp, Hf, Hb, Hs. apply buckets_partition. }
  split_and!; try done.
  - intros H0. split_and!; try lia.
    subst s. rewrite passRate_unfold, H0. reflexivity.
  - intros Hpos Hbound. subst s. rewrite passRate_unfold.
    destruct (Nat.ltb_spec 0 (total (stats v))) as [_|]; [|lia].
    apply passRate_tenths; [done|apply passed_le_total|done].
  - intros H10 H6. subst s. rewrite passRate_unfold, H10, H6.
    vm_compute. reflexivity.
Qed.

Lemma stats_counts_and_rate_witness :
  let s := stats (Sample.detail_view Sample.ten_cases) in
  total s = 10 ∧ passed s = 6 ∧ failed s = 1 ∧ blocked s = 1 ∧ skipped s = 0
  ∧ passRate s = "60.0"
  ∧ ∃ n : nat,
      passRate s = pretty (n `div` 10) +:+ "." +:+ pretty (n `mod` 10)
      ∧ 2 * (n * 10) ≤ 2 * (1000 * 6) + 10
      ∧ 2 * (1000 * 6) ≤ 2 * (n * 10) + 10.
Proof.
  pose proof (stats_counts_and_rate (Sample.detail_view Sample.ten_cases))
    as (Ht & Hp & Hf & Hb & Hs & _ & _ & Hrate & H60).
  split_and!.
  - exact Ht.
  - exact Hp.
  - exact Hf.
  - exact Hb.
  - exact Hs.
  - exact (H60 eq_refl eq_refl).
  - exact (Hrate (Nat.lt_0_succ 9) eq_refl).
Defined.

(** C2 as worded fails on a percentage that lies half-way between two
    tenths.  23 passed out of 80 is exactly 28.75%, which to one decimal
    is 28.8; the quotient and the product are rounded to binary64, the
    product is just below 28.75, and the page shows ["28.7"]. *)
Lemma passRate_below_exact_half :
  let s := stats (Sample.detail_view Sample.eighty_cases) in
  total s = 80 ∧ passed s = 23
  ∧ 2 * (1000 * passed s) = 2 * (287 * total s) + total s
  ∧ passRate_as_specified (passed s) (total s) = "28.8"
  ∧ passRate s = "28.7"
  ∧ passRate s ≠ passRate_as_specified (passed s) (total s).
Proof.
  intros s.
  assert (Ht : total s = 80) by (vm_compute; reflexivity).
  assert (Hp : passed s = 23) by (vm_compute; reflexivity).
  assert (Hr : passRate s = "28.7") by (vm_compute; reflexivity).
  rewrite Ht, Hp, Hr.
  assert (Hw : passRate_as_specified 23 80 = "28.8") by (vm_compute; reflexivity).
  rewrite Hw. split_and!; first [lia | done].
Qed.

(** ** [saveExecution] *)

Lemma findIndex_unique_id (updated c : ArchivedTestCase) :
  ∀ (cases : list ArchivedTestCase) (i : nat),
    NoDup (id <$> cases) →
    cases !! i = Some c →
    id updated = id c →
    Js.findIndex (λ c', N.eqb (id c') (id updated)) cases = Some i.
Proof.
  induction cases as [|c0 cases IH]; intros i Hnd Hi Hid; [done|].
  rewrite fmap_cons in Hnd. apply NoDup_cons in Hnd as [Hnotin Hnd].
  destruct i as [|i]; simpl in *.
  - simplify_eq. by rewrite Hid, N.eqb_refl.
  - destruct (N.eqb (id c0) (id updated)) eqn:E.
    + apply N.eqb_eq in E. exfalso. apply Hnotin.
      rewrite E, Hid. apply list_elem_of_fmap. exists c. split; [done|].
      by apply list_elem_of_lookup_2 with i.
    + by rewrite (IH i).
Qed.

(** C3.  In a list whose cases have distinct ids, take the case at any
    position, any draft for it, and a server that answers the update
    with the same case carrying the payload it was sent.  After
    [saveExecution] the list holds, at that position, a case whose
    overall status, comment and step results are the draft's; every
    other position is as before. *)
Theorem saveExecution_echo_round_trip
    (updateExecution : N → ExecutionUpdateRequest → Reply ArchivedTestCase)
    (v : View) (c updated : ArchivedTestCase) (i : nat) :
  NoDup (id <$> testCases v) →
  testCases v !! i = Some c →
  currentCase v = Some c →
  updateExecution (id c) (payload (currentExecution v)) = Resolved updated →
  id updated = id c →
  execution_status updated = Some (req_status (payload (currentExecution v))) →
  execution_comment updated = Some (req_comment (payload (currentExecution v))) →
  step_execution_results updated =
    Some (to_saved <$> req_step_results (payload (currentExecution v))) →
  let v' := (saveExecution updateExecution v).1 in
  ∃ c',
    testCases v' !! i = Some c'
    ∧ id c' = id c
    ∧ execution_status c' = Some (status (currentExecution v))
    ∧ execution_comment c' = Some (comment (currentExecution v))
    ∧ step_execution_results c' =
        Some (to_saved <$> step_results (currentExecution v))
    ∧ (∀ j, j ≠ i → testCases v' !! j = testCases v !! j)
    ∧ length (testCases v') = length (testCases v).
Proof.
  intros Hnd Hi Hcur Hreply Hid Hst Hcm Hres v'.
  subst v'. unfold saveExecution. rewrite Hcur, Hreply. simpl.
  unfold update_local_list.
  rewrite (findIndex_unique_id updated c (testCases v) i) by done.
  exists updated. split_and!; try done.
  - apply list_lookup_insert_eq. by eapply lookup_lt_Some.
  - intros j Hj. by apply list_lookup_insert_ne.
  - apply length_insert.
Qed.

Lemma saveExecution_echo_round_trip_witness :
  let v := with_execution Sample.all_steps_passed Sample.drawer in
  let v' := (saveExecution (Sample.echo_server (testCases v)) v).1 in
  ∃ c',
    testCases v' !! 1 = Some c'
    ∧ id c' = 7%N
    ∧ execution_status c' = Some "failed"
    ∧ execution_comment c' = Some "flaky"
    ∧ step_execution_results c' =
        Some {[ "1" := {| saved_status := Some "passed"; saved_actual := Some "timeout" |};
                "2" := {| saved_status := Some "passed"; saved_actual := Some "as expected" |} ]}
    ∧ testCases v' !! 0 = Some Sample.fully_saved.
Proof.
  intros v v'.
  destruct (saveExecution_echo_round_trip
              (Sample.echo_server (testCases v)) v Sample.half_saved
              (Sample.echo Sample.half_saved (payload (currentExecution v))) 1)
    as (c' & Hc' & Hid & Hst & Hcm & Hres & Hother & _).
  - apply (bool_decide_unpack _). vm_compute. reflexivity.
  - reflexivity.
  - reflexivity.
  - reflexivity.
  - reflexivity.
  - reflexivity.
  - reflexivity.
  - reflexivity.
  - exists c'. split_and!.
    + exact Hc'.
    + exact Hid.
    + exact Hst.
    + exact Hcm.
    + rewrite Hres. reflexivity.
    + exact (Hother 0 (O_S 0)).
Defined.

(** ** The drawer's bindings and what [saveExecution] sends *)

Lemma setStepStatus_frame (idx : nat) (value : string) (e e' : Execution) :
  setStepStatus idx value e = Some e' →
  status e' = status e ∧ comment e' = comment e.
Proof.
  unfold setStepStatus. intros H.
  destruct (step_results e !! Js.String_of_nat (idx + 1)); by simplify_eq/=.
Qed.

Lemma setStepActual_frame (idx : nat) (value : string) (e e' : Execution) :
  setStepActual idx value e = Some e' →
  status e' = status e ∧ comment e' = comment e.
Proof.
  unfold setStepActual. intros H.
  destruct (step_results e !! Js.String_of_nat (idx + 1)); by simplify_eq/=.
Qed.

Lemma step_edits_frame (l : list Edit) :
  ∀ e e' : Execution,
    forallb is_step_edit l = true →
    edits l e = Some e' →
    status e' = status e ∧ comment e' = comment e.
Proof.
  induction l as [|a l IH]; intros e e' Hall Hrun; simpl in *.
  - by simplify_eq.
  - apply andb_prop in Hall as [Ha Hl].
    destruct (edit a e) as [e1|] eqn:E; simpl in Hrun; [|done].
    destruct (IH e1 e' Hl Hrun) as [-> ->].
    destruct a as [idx value|idx value|value|value]; simpl in *; try done.
    + by apply setStepStatus_frame in E.
    + by apply setStepActual_frame in E.
Qed.

(** On a freshly opened drawer every step card can be edited: the
    bindings find their entry. *)
Lemma step_edit_defined (row : ArchivedTestCase) (v : View) (a : Edit) (idx : nat) :
  idx < step_count row →
  (∃ value, a = StepStatus idx value ∨ a = StepActual idx value) →
  is_Some (edit a (currentExecution (openRunDrawer row v))).
Proof.
  intros Hidx (value & [->| ->]); cbn [edit];
    unfold setStepStatus, setStepActual; cbv zeta;
    rewrite (openRunDrawer_lookup row v (idx + 1)) by lia; by eexists.
Qed.

(** C9.  Any run of edits to step cards — statuses or actual texts —
    leaves the draft's overall status and comment as they were: nothing
    derives the overall status from the steps.  [saveExecution] then
    issues one update request, for the open case, carrying exactly that
    overall status and comment next to the edited step results. *)
Theorem step_edits_keep_overall
    (updateExecution : N → ExecutionUpdateRequest → Reply ArchivedTestCase)
    (v : View) (c : ArchivedTestCase) (l : list Edit) (e' : Execution) :
  currentCase v = Some c →
  forallb is_step_edit l = true →
  edits l (currentExecution v) = Some e' →
  status e' = status (currentExecution v)
  ∧ comment e' = comment (currentExecution v)
  ∧ List.filter is_request (saveExecution updateExecution (with_execution e' v)).2 =
      [ PutExecution (id c)
          {| req_status := status (currentExecution v);
             req_comment := comment (currentExecution v);
             req_step_results := step_results e' |} ].
Proof.
  intros Hcur Hall Hrun.
  destruct (step_edits_frame l _ _ Hall Hrun) as [Hst Hcm].
  split_and!; try done.
  unfold saveExecution. simpl. rewrite Hcur.
  unfold payload. rewrite Hst, Hcm.
  by destruct (updateExecution _ _).
Qed.

Lemma step_edits_keep_overall_witness :
  let v := with_execution Sample.failed_overall Sample.drawer in
  status Sample.all_steps_passed = "failed"
  ∧ comment Sample.all_steps_passed = "flaky"
  ∧ List.filter is_request
      (saveExecution (Sample.echo_server (testCases v))
         (with_execution Sample.all_steps_passed v)).2 =
      [ PutExecution 7
          {| req_status := "failed";
             req_comment := "flaky";
             req_step_results :=
               {[ "1" := {| step_status := "passed"; step_actual := "timeout" |};
                  "2" := {| step_status := "passed"; step_actual := "as expected" |} ]} |} ].
Proof.
  intros v.
  exact (step_edits_keep_overall
           (Sample.echo_server (testCases v)) v Sample.half_saved
           Sample.step_edits Sample.all_steps_passed
           eq_refl eq_refl eq_refl).
Defined.

(** ** [handleExport] *)

Lemma export_ext_cases (format : string) :
  (format = "xmind" → export_ext format = "xmind")
  ∧ (format = "markdown" → export_ext format = "md")
  ∧ (format ≠ "xmind" → format ≠ "markdown" → export_ext format = "csv").
Proof.
  unfold export_ext. split_and!.
  - by intros ->.
  - by intros ->.
  - intros H1 H2.
    apply String.eqb_neq in H1, H2. by rewrite H1, H2.
Qed.

(** C7.  For every archive name and format tag, a file is downloaded
    exactly when the export request resolves, and it is then named
    [<archive-name>_导出.<ext>] with ext ['xmind'] for format ['xmind'],
    ['md'] for ['markdown'] and ['csv'] for every other tag. *)
Theorem handleExport_filename
    (exportArchive : N → string → Reply Blob) (format : string) (v : View) :
  let ext :=
    if decide (format = "xmind") then "xmind"
    else if decide (format = "markdown") then "md"
    else "csv" in
  let events := (handleExport exportArchive format v).2 in
  (∀ blob, exportArchive (archiveId v) format = Resolved blob →
     Download (archiveName v +:+ "_导出." +:+ ext) blob ∈ events)
  ∧ (∀ filename blob, Download filename blob ∈ events →
       filename = archiveName v +:+ "_导出." +:+ ext
       ∧ exportArchive (archiveId v) format = Resolved blob).
Proof.
  intros ext events.
  assert (Hext : export_ext format = ext).
  { subst ext. destruct (export_ext_cases format) as (Hx & Hm & Hc).
    repeat case_decide; auto. }
  subst events. unfold handleExport, export_filename. rewrite Hext.
  split.
  - intros blob ->. simpl. set_solver.
  - intros filename blob.
    destruct (exportArchive (archiveId v) format) as [b|d]; simpl.
    + rewrite !elem_of_cons, elem_of_nil. intros [H|[H|[H|[]]]]; by simplify_eq.
    + rewrite !elem_of_cons, elem_of_nil. intros [H|[H|[]]]; by simplify_eq.
Qed.

Lemma handleExport_filename_witness :
  Download "v1.0_导出.md" "# cases" ∈
    (handleExport (λ _ _, Resolved "# cases") "markdown"
       (Sample.detail_view Sample.ten_cases)).2
  ∧ Download "v1.0_导出.xmind" "PK" ∈
    (handleExport (λ _ _, Resolved "PK") "xmind"
       (Sample.detail_view Sample.ten_cases)).2
  ∧ Download "v1.0_导出.csv" "id,title" ∈
    (handleExport (λ _ _, Resolved "id,title") "excel"
       (Sample.detail_view Sample.ten_cases)).2.
Proof.
  split_and!.
  - exact (proj1 (handleExport_filename (λ _ _, Resolved "# cases") "markdown"
                    (Sample.detail_view Sample.ten_cases)) "# cases" eq_refl).
  - exact (proj1 (handleExport_filename (λ _ _, Resolved "PK") "xmind"
                    (Sample.detail_view Sample.ten_cases)) "PK" eq_refl).
  - exact (proj1 (handleExport_filename (λ _ _, Resolved "id,title") "excel"
                    (Sample.detail_view Sample.ten_cases)) "id,title" eq_refl).
Defined.

(** ** [openCreateDialog]: the tree *)

Import ProjectArchives.

Lemma filter_bool_prop {A : Type} (f : A → bool) (l : list A) :
  List.filter f l = filter (λ x, f x = true) l.
Proof.
  induction l as [|x l IH]; [done|].
  rewrite filter_cons. simpl. rewrite IH.
  destruct (f x); by case_decide.
Qed.

Lemma has_children_module_node (m : ModuleItem) :
  has_children (module_node m) = true ↔ cases_of m ≠ [].
Proof.
  unfold has_children, module_node; simpl. rewrite length_fmap, Nat.ltb_lt.
  destruct (cases_of m); simpl; split; (done || lia).
Qed.

(** Filtering the built module nodes is filtering the listing. *)
Lemma filter_module_nodes (listing : list ModuleItem) :
  List.filter has_children (module_node <$> listing) =
    module_node <$> filter (λ m, 0 < length (cases_of m)) listing.
Proof.
  induction listing as [|m listing IH]; [done|].
  rewrite fmap_cons, filter_cons. cbn [List.filter]. rewrite IH.
  destruct (has_children (module_node m)) eqn:E; unfold has_children in E;
    simpl in E; rewrite length_fmap in E.
  - apply Nat.ltb_lt in E. by rewrite decide_True.
  - apply Nat.ltb_ge in E. rewrite decide_False by lia. done.
Qed.

Lemma module_key_inj (m1 m2 : ModuleItem) :
  module_key (module_node m1) = module_key (module_node m2) → mod_id m1 = mod_id m2.
Proof.
  simpl. intros H. apply (inj (String.append "module-")) in H.
  by apply (inj pretty) in H.
Qed.

Lemma case_key_inj (tc1 tc2 : CaseItem) :
  case_key (case_node tc1) = case_key (case_node tc2) → tc_id tc1 = tc_id tc2.
Proof.
  simpl. intros H. apply (inj (String.append "case-")) in H.
  by apply (inj pretty) in H.
Qed.

Lemma NoDup_fmap_filter {A B : Type} (f : A → B) (P : A → Prop)
    `{!∀ x, Decision (P x)} (l : list A) :
  NoDup (f <$> l) → NoDup (f <$> filter P l).
Proof.
  intros Hnd. apply (sublist_NoDup _ (f <$> l)); [done|].
  apply fmap_sublist, sublist_filter.
Qed.

Lemma NoDup_module_keys (l : list ModuleItem) :
  NoDup (mod_id <$> l) → NoDup (module_key ∘ module_node <$> l).
Proof.
  induction l as [|m l IH]; [constructor|].
  rewrite !fmap_cons, !NoDup_cons. intros [Hnotin Hnd].
  split; [|by apply IH].
  intros (m' & Hk & Hm')%list_elem_of_fmap. apply Hnotin.
  apply module_key_inj in Hk. rewrite Hk.
  apply list_elem_of_fmap. by exists m'.
Qed.

(** C6.  For every module-to-case listing the server returns,
    [openCreateDialog] leaves as tree a single root node, the
    select-all node, whose children are the nodes of exactly the modules
    that have at least one case, in listing order and one per listed
    module: a module with no cases has no node, no node is without
    children, and the children of a module's node are its cases, one
    leaf each, carrying the case id. *)
Theorem openCreateDialog_tree
    (getProjectTestCases : N → Reply (list ModuleItem))
    (projectId : N) (v : View) (listing : list ModuleItem) :
  getProjectTestCases projectId = Resolved listing →
  let v' := (openCreateDialog getProjectTestCases projectId v).1 in
  ∃ root : RootNode,
    treeData v' = [root]
    ∧ root_key root = "root-all"
    ∧ root_label root = "全部用例"
    ∧ root_children root =
        module_node <$> filter (λ m, 0 < length (cases_of m)) listing
    ∧ Forall (λ node, module_children node ≠ []) (root_children root)
    ∧ (∀ m, cases_of m = [] → module_node m ∉ root_children root)
    ∧ (∀ m, m ∈ listing → cases_of m ≠ [] → module_node m ∈ root_children root)
    ∧ (∀ m, module_children (module_node m) = case_node <$> cases_of m
            ∧ case_id <$> module_children (module_node m) = tc_id <$> cases_of m
            ∧ Forall (λ c, isLeaf c = true) (module_children (module_node m)))
    ∧ (NoDup (mod_id <$> listing) → NoDup (module_key <$> root_children root)).
Proof.
  intros Hreply v'. subst v'. unfold openCreateDialog. rewrite Hreply. simpl.
  eexists. split; [reflexivity|]. simpl.
  rewrite filter_module_nodes.
  assert (Hall : Forall (λ node, module_children node ≠ [])
                   (module_node <$> filter (λ m, 0 < length (cases_of m)) listing)).
  { apply Forall_fmap, Forall_forall. intros m [Hm _]%list_elem_of_filter.
    simpl. destruct (cases_of m); [simpl in Hm; lia | done]. }
  split_and!; try done.
  - intros m Hnil Hin.
    rewrite Forall_forall in Hall. apply Hall in Hin.
    simpl in Hin. by rewrite Hnil in Hin.
  - intros m Hin Hne. apply list_elem_of_fmap. exists m. split; [done|].
    apply list_elem_of_filter. split; [|done].
    destruct (cases_of m); [done | simpl; lia].
  - intros m. split_and!; [done| |].
    + simpl. rewrite <- list_fmap_compose. done.
    + simpl. apply Forall_fmap, Forall_forall. done.
  - intros Hnd. rewrite <- list_fmap_compose.
    by apply NoDup_module_keys, NoDup_fmap_filter.
Qed.

Lemma openCreateDialog_tree_witness :
  ∃ root : RootNode,
    treeData (openCreateDialog (λ _, Resolved Sample.listing) 5
                Sample.closed_dialog).1 = [root]
    ∧ module_key <$> root_children root = ["module-1"; "module-4"]
    ∧ (λ node, case_id <$> module_children node) <$> root_children root =
        [[11; 12]; [41]]%N.
Proof.
  destruct (openCreateDialog_tree (λ _, Resolved Sample.listing) 5
              Sample.closed_dialog Sample.listing eq_refl)
    as (root & Htree & _ & _ & Hchildren & _).
  exists root. split_and!.
  - exact Htree.
  - rewrite Hchildren. reflexivity.
  - rewrite Hchildren. reflexivity.
Defined.

(** ** [handleCreate]: from checked nodes to case ids *)

Lemma startsWith_append (p s : string) : Js.startsWith p (p +:+ s) = true.
Proof. induction p as [|a p IH]; simpl; [done|]. by rewrite Ascii.eqb_refl. Qed.

Lemma caseIds_app (xs ys : list NodeData) :
  caseIds (xs ++ ys) = caseIds xs ++ caseIds ys.
Proof. unfold caseIds. by rewrite List.filter_app, fmap_app. Qed.

Lemma filter_all_true {A : Type} (f : A → bool) (l : list A) :
  (∀ x, x ∈ l → f x = true) → List.filter f l = l.
Proof.
  induction l as [|x l IH]; intros H; simpl; [done|].
  rewrite H by left. rewrite IH; [done|]. intros y Hy. apply H. by right.
Qed.

Lemma filter_all_false {A : Type} (f : A → bool) (l : list A) :
  (∀ x, x ∈ l → f x = false) → List.filter f l = [].
Proof.
  induction l as [|x l IH]; intros H; simpl; [done|].
  rewrite H by left. apply IH. intros y Hy. apply H. by right.
Qed.

Lemma filter_bind {A B : Type} (f : B → bool) (g : A → list B) (l : list A) :
  l ≫= (λ x, List.filter f (g x)) = List.filter f (l ≫= g).
Proof.
  induction l as [|x l IH]; [done|].
  cbn [mbind list_bind]. by rewrite List.filter_app, <- IH.
Qed.

Lemma filter_unique {A : Type} (f : A → N) (x : A) (l : list A) :
  NoDup (f <$> l) → x ∈ l →
  List.filter (λ y, bool_decide (f y = f x)) l = [x].
Proof.
  induction l as [|y l IH]; intros Hnd Hx; [by apply elem_of_nil in Hx|].
  rewrite fmap_cons in Hnd. apply NoDup_cons in Hnd as [Hnotin Hnd].
  simpl. apply elem_of_cons in Hx as [->|Hx].
  - rewrite bool_decide_eq_true_2 by done. f_equal.
    apply filter_all_false. intros z Hz. apply bool_decide_eq_false_2.
    intros Heq. apply Hnotin. rewrite <- Heq.
    apply list_elem_of_fmap. by exists z.
  - rewrite bool_decide_eq_false_2; [by apply IH|].
    intros Heq. apply Hnotin. rewrite Heq.
    apply list_elem_of_fmap. by exists x.
Qed.

Section extraction.
Variable marks : gset string.
Variable listing0 : list ModuleItem.

Local Abbreviation w := {| data := build_tree listing0; ticked := marks |}.

(** The checked leaves under one module node are its covered cases. *)
Lemma caseIds_leaves (g : string → bool) (cs : list CaseItem) :
  caseIds (OfCase <$> List.filter (λ c, g (case_key c)) (case_node <$> cs)) =
    Some ∘ tc_id <$> List.filter (λ tc, g (case_key (case_node tc))) cs.
Proof.
  induction cs as [|tc cs IH]; [done|].
  rewrite fmap_cons. cbn [List.filter].
  destruct (g (case_key (case_node tc))); [|done].
  rewrite !fmap_cons, <- IH. unfold caseIds. cbn [List.filter key].
  assert (Js.startsWith "case-" (case_key (case_node tc)) = true) as ->
    by apply startsWith_append.
  done.
Qed.

Lemma caseIds_checked_cases (above : bool) (m : ModuleItem) :
  caseIds (checked_cases w above (module_node m)) =
    Some ∘ tc_id <$>
      List.filter
        (λ tc, above
               || bool_decide (module_key (module_node m) ∈ marks)
               || bool_decide (case_key (case_node tc) ∈ marks))
        (cases_of m).
Proof.
  unfold checked_cases. cbn [module_children module_node].
  destruct (cases_of m) as [|tc cs] eqn:E.
  - simpl. by destruct (above || _).
  - rewrite <- E. clear E.
    assert (Hne : ∀ (l : list CaseNode) (X Y : list NodeData),
              caseIds X = [] → l = [] → Y = [] →
              caseIds (match l with [] => X | _ => Y end) = caseIds Y).
    { intros l X Y HX -> ->. done. }
    set (g := λ k : string,
           above || bool_decide (module_key (module_node m) ∈ marks)
           || bool_decide (k ∈ marks)).
    transitivity
      (caseIds (OfCase <$> List.filter (λ c, g (case_key c)) (case_node <$> cases_of m))).
    + destruct (case_node <$> cases_of m) eqn:E2; [|done].
      simpl. by destruct (above || _).
    + apply (caseIds_leaves g).
Qed.

Lemma caseIds_modules (above : bool) (listing : list ModuleItem) :
  caseIds (List.filter has_children (module_node <$> listing)
             ≫= checked_cases w above) =
    Some ∘ tc_id <$>
      (listing ≫= λ m,
         List.filter
           (λ tc, above
                  || bool_decide (module_key (module_node m) ∈ marks)
                  || bool_decide (case_key (case_node tc) ∈ marks))
           (cases_of m)).
Proof.
  induction listing as [|m listing IH]; [done|].
  rewrite fmap_cons. cbn [List.filter mbind list_bind].
  rewrite fmap_app, <- IH, <- caseIds_checked_cases.
  destruct (has_children (module_node m)) eqn:E.
  - cbn [mbind list_bind]. by rewrite caseIds_app.
  - unfold checked_cases.
    unfold has_children in E. apply Nat.ltb_ge in E.
    destruct (module_children (module_node m)); [|simpl in E; lia].
    simpl. by destruct (above || _).
Qed.

(** What [handleCreate] extracts from the tree built for a listing is
    the ids of the covered cases, in display order. *)
Lemma caseIds_built :
  caseIds (getCheckedNodes w) = Some ∘ tc_id <$> covered_cases marks listing0.
Proof.
  unfold getCheckedNodes, covered_cases, covered.
  cbn [data build_tree mbind list_bind]. rewrite app_nil_r.
  unfold checked_modules. cbn [root_children root_key ticked].
  rewrite <- caseIds_modules.
  destruct (List.filter has_children (module_node <$> listing0)); [|done].
  simpl. by case_bool_decide.
Qed.

End extraction.

(** A tick on the root covers every case. *)
Lemma covered_cases_root (marks : gset string) (listing : list ModuleItem) :
  "root-all" ∈ marks → covered_cases marks listing = listing ≫= cases_of.
Proof.
  intros Hroot. unfold covered_cases.
  induction listing as [|m listing IH]; [done|].
  cbn [mbind list_bind]. rewrite IH. f_equal.
  apply filter_all_true. intros tc _. unfold covered.
  by rewrite bool_decide_eq_true_2.
Qed.

Lemma covered_module_tick (m0 m : ModuleItem) (tc : CaseItem) :
  covered ({[ module_key (module_node m0) ]} ∪ ∅) m tc =
    bool_decide (mod_id m = mod_id m0).
Proof.
  unfold covered.
  rewrite (bool_decide_eq_false_2 ("root-all" ∈ _)) by set_solver.
  rewrite (bool_decide_eq_false_2 (case_key (case_node tc) ∈ _)) by set_solver.
  rewrite orb_false_r. simpl.
  apply bool_decide_ext. split.
  - intros H. apply module_key_inj. set_solver.
  - intros ->. set_solver.
Qed.

(** A tick on one module covers that module's cases and nothing else. *)
Lemma covered_cases_module (m0 : ModuleItem) (listing : list ModuleItem) :
  NoDup (mod_id <$> listing) → m0 ∈ listing →
  covered_cases ({[ module_key (module_node m0) ]} ∪ ∅) listing = cases_of m0.
Proof.
  unfold covered_cases.
  induction listing as [|m listing IH]; intros Hnd Hin;
    [by apply elem_of_nil in Hin|].
  rewrite fmap_cons in Hnd. apply NoDup_cons in Hnd as [Hnotin Hnd].
  cbn [mbind list_bind].
  apply elem_of_cons in Hin as [->|Hin].
  - rewrite filter_all_true
      by (intros tc _; rewrite covered_module_tick; by apply bool_decide_eq_true_2).
    rewrite <- (app_nil_r (cases_of m)) at 2. f_equal.
    clear IH Hnd. induction listing as [|m' listing IH]; [done|].
    cbn [mbind list_bind].
    rewrite filter_all_false; [apply IH; set_solver|].
    intros tc _. rewrite covered_module_tick. apply bool_decide_eq_false_2.
    intros Heq. apply Hnotin. rewrite <- Heq. set_solver.
  - rewrite filter_all_false; [by apply IH|].
    intros tc _. rewrite covered_module_tick. apply bool_decide_eq_false_2.
    intros Heq. apply Hnotin. rewrite Heq.
    apply list_elem_of_fmap. by exists m0.
Qed.

Lemma covered_case_tick (tc0 : CaseItem) (m : ModuleItem) (tc : CaseItem) :
  covered ({[ case_key (case_node tc0) ]} ∪ ∅) m tc =
    bool_decide (tc_id tc = tc_id tc0).
Proof.
  unfold covered.
  rewrite (bool_decide_eq_false_2 ("root-all" ∈ _)) by set_solver.
  rewrite (bool_decide_eq_false_2 (module_key (module_node m) ∈ _)) by set_solver.
  simpl.
  apply bool_decide_ext. split.
  - intros H. apply case_key_inj. set_solver.
  - intros ->. set_solver.
Qed.

(** A tick on one case covers that case alone. *)
Lemma covered_cases_leaf (m0 : ModuleItem) (tc0 : CaseItem)
    (listing : list ModuleItem) :
  NoDup (tc_id <$> listing ≫= cases_of) →
  m0 ∈ listing → tc0 ∈ cases_of m0 →
  covered_cases ({[ case_key (case_node tc0) ]} ∪ ∅) listing = [tc0].
Proof.
  intros Hnd Hm Htc. unfold covered_cases.
  transitivity
    (listing ≫= λ m, List.filter (λ tc, bool_decide (tc_id tc = tc_id tc0)) (cases_of m)).
  - clear. induction listing as [|m listing IH]; [done|].
    cbn [mbind list_bind]. rewrite IH. f_equal.
    apply List.filter_ext. intros tc. apply covered_case_tick.
  - rewrite filter_bind. apply filter_unique; [done|].
    apply list_elem_of_bind. by exists m0.
Qed.

Lemma covered_cases_sublist (marks : gset string) (listing : list ModuleItem) :
  covered_cases marks listing `sublist_of` listing ≫= cases_of.
Proof.
  unfold covered_cases.
  induction listing as [|m listing IH]; [done|].
  cbn [mbind list_bind]. apply sublist_app; [|done].
  rewrite filter_bool_prop. apply sublist_filter.
Qed.

(** The built tree hands back its root, when nothing hangs below it, or
    case leaves. *)
Lemma checked_nodes_shape (marks : gset string) (listing : list ModuleItem)
    (node : NodeData) :
  node ∈ getCheckedNodes {| data := build_tree listing; ticked := marks |} →
  (∃ r, node = OfRoot r ∧ root_key r = "root-all")
  ∨ (∃ tc, node = OfCase (case_node tc)).
Proof.
  unfold getCheckedNodes. cbn [data build_tree mbind list_bind].
  rewrite app_nil_r. unfold checked_modules. cbn [root_children root_key ticked].
  destruct (List.filter has_children (module_node <$> listing)) as [|n ns] eqn:E.
  - case_bool_decide; [|by intros ?%elem_of_nil].
    intros ->%list_elem_of_singleton. left. by eexists.
  - rewrite <- E. clear E n ns.
    intros (n & Hnode & Hn)%list_elem_of_bind.
    rewrite filter_bool_prop in Hn.
    apply list_elem_of_filter in Hn as [Hch (m & -> & _)%list_elem_of_fmap].
    right. unfold checked_cases in Hnode.
    cbn [module_children module_node] in Hnode.
    unfold has_children in Hch. apply Nat.ltb_lt in Hch.
    cbn [module_children module_node] in Hch.
    destruct (case_node <$> cases_of m) as [|c cs] eqn:E; [simpl in Hch; lia|].
    rewrite <- E in Hnode. clear E Hch.
    apply list_elem_of_fmap in Hnode as (c' & -> & Hc').
    rewrite filter_bool_prop in Hc'.
    apply list_elem_of_filter in Hc' as [_ (tc & -> & _)%list_elem_of_fmap].
    by exists tc.
Qed.

(** C5.  On the tree built for a listing whose modules and cases have
    distinct ids, and for any set of ticks (root, module or case): of
    the nodes the tree hands back, [handleCreate] keeps exactly the case
    leaves; the ids it extracts are those of the cases covered by a
    tick, in display order and without duplicates.  A tick on the root
    alone yields every case id of every module; a tick on one module
    yields that module's case ids; a tick on one case yields that id
    alone. *)
Theorem selection_extraction (listing : list ModuleItem) (marks : gset string) :
  NoDup (mod_id <$> listing) →
  NoDup (tc_id <$> listing ≫= cases_of) →
  let tree := {| data := build_tree listing; ticked := marks |} in
  let fresh := {| data := build_tree listing; ticked := ∅ |} in
  (∀ node, node ∈ getCheckedNodes tree →
     Js.startsWith "case-" (key node) = true ↔ ∃ c, node = OfCase c)
  ∧ caseIds (getCheckedNodes tree) = Some ∘ tc_id <$> covered_cases marks listing
  ∧ (∀ x, x ∈ caseIds (getCheckedNodes tree) ↔
       ∃ m tc, m ∈ listing ∧ tc ∈ cases_of m ∧ x = Some (tc_id tc)
               ∧ ("root-all" ∈ marks
                  ∨ module_key (module_node m) ∈ marks
                  ∨ case_key (case_node tc) ∈ marks))
  ∧ NoDup (caseIds (getCheckedNodes tree))
  ∧ caseIds (getCheckedNodes (tick "root-all" fresh)) =
      Some ∘ tc_id <$> (listing ≫= cases_of)
  ∧ (∀ m, m ∈ listing →
       caseIds (getCheckedNodes (tick (module_key (module_node m)) fresh)) =
         Some ∘ tc_id <$> cases_of m)
  ∧ (∀ m tc, m ∈ listing → tc ∈ cases_of m →
       caseIds (getCheckedNodes (tick (case_key (case_node tc)) fresh)) =
         [Some (tc_id tc)]).
Proof.
  intros Hmods Hcases tree fresh. subst tree fresh. unfold tick. cbn [data ticked].
  split_and!.
  - intros node Hnode.
    destruct (checked_nodes_shape _ _ _ Hnode) as [(r & -> & Hr)|(tc & ->)].
    + simpl. rewrite Hr. split; [done|]. by intros [c Hc].
    + split; [by eexists|]. intros _. apply startsWith_append.
  - apply caseIds_built.
  - intros x. rewrite caseIds_built, list_elem_of_fmap. split.
    + intros (tc & -> & Htc). unfold covered_cases in Htc.
      apply list_elem_of_bind in Htc as (m & Htc & Hm).
      rewrite filter_bool_prop in Htc.
      apply list_elem_of_filter in Htc as [Hcov Htc].
      exists m, tc. split_and!; try done.
      unfold covered in Hcov.
      apply orb_prop in Hcov as [Hcov|Hcov];
        [apply orb_prop in Hcov as [Hcov|Hcov]|];
        apply bool_decide_eq_true in Hcov; auto.
    + intros (m & tc & Hm & Htc & -> & Hcov).
      exists tc. split; [done|]. unfold covered_cases.
      apply list_elem_of_bind. exists m. split; [|done].
      rewrite filter_bool_prop. apply list_elem_of_filter. split; [|done].
      unfold covered.
      destruct Hcov as [H|[H|H]]; rewrite (bool_decide_eq_true_2 _ H);
        by rewrite ?orb_true_r.
  - rewrite caseIds_built, list_fmap_compose.
    apply (NoDup_fmap_2 _).
    apply (sublist_NoDup _ (tc_id <$> listing ≫= cases_of)); [done|].
    apply fmap_sublist, covered_cases_sublist.
  - rewrite caseIds_built. f_equal. apply covered_cases_root. set_solver.
  - intros m Hm. rewrite caseIds_built. f_equal. by apply covered_cases_module.
  - intros m tc Hm Htc. rewrite caseIds_built.
    by rewrite (covered_cases_leaf m tc).
Qed.

Lemma selection_extraction_witness :
  let fresh := {| data := build_tree Sample.listing; ticked := ∅ |} in
  caseIds (getCheckedNodes (tick "root-all" fresh)) = [Some 11; Some 12; Some 41]%N
  ∧ caseIds (getCheckedNodes (tick "module-1" fresh)) = [Some 11; Some 12]%N
  ∧ caseIds (getCheckedNodes (tick "case-41" fresh)) = [Some 41%N]
  ∧ caseIds (getCheckedNodes (tick "module-2" fresh)) = [].
Proof.
  intros fresh.
  assert (Hmods : NoDup (mod_id <$> Sample.listing))
    by (apply (bool_decide_unpack _); vm_compute; reflexivity).
  assert (Hcases : NoDup (tc_id <$> Sample.listing ≫= cases_of))
    by (apply (bool_decide_unpack _); vm_compute; reflexivity).
  destruct (selection_extraction Sample.listing ∅ Hmods Hcases)
    as (_ & _ & _ & _ & Hroot & Hmod & Hleaf).
  split_and!.
  - exact Hroot.
  - refine (Hmod Sample.auth _). repeat constructor.
  - refine (Hleaf Sample.orders Sample.checkout_case _ _); repeat constructor.
  - refine (Hmod Sample.empty _). repeat constructor.
Defined.

(** ** [handleCreate]: local validation *)

(** C4.  When the name is the empty string or no case id is selected,
    [handleCreate] changes nothing and issues no request.  When the name
    is non-empty and at least one case id is selected, it issues one
    create request, first of all it does, carrying exactly the form's
    name and description and the selected case ids. *)
Theorem handleCreate_local_validation
    (createArchive : N → ArchiveCreateRequest → Reply ProjectArchive.t)
    (projectId : N) (v : View) :
  let out := handleCreate createArchive projectId v in
  let body :=
    {| req_name := name (createForm v);
       req_description := description (createForm v);
       test_case_ids := selection v |} in
  (name (createForm v) = "" ∨ selection v = [] →
     out.1 = v ∧ List.filter is_request out.2 = [])
  ∧ (name (createForm v) ≠ "" → selection v ≠ [] →
       List.filter is_create out.2 = [PostArchive projectId body]
       ∧ ∃ rest, out.2 = PostArchive projectId body :: rest).
Proof.
  intros out body. subst out body. unfold handleCreate, selection.
  destruct (name (createForm v)) as [|a s] eqn:Hname; simpl.
  - split; [done|]. by intros [].
  - destruct (treeRef v) as [tree|]; simpl.
    + destruct (caseIds (getCheckedNodes tree)) as [|x ids] eqn:Hids; simpl.
      * split; [done|]. by intros _ [].
      * split; [by intros [|]|]. intros _ _.
        destruct (createArchive _ _); simpl; eauto.
    + split; [done|]. by intros _ [].
Qed.

Lemma handleCreate_local_validation_witness :
  List.filter is_request
    (handleCreate (λ _ _, Resolved Sample.created) 5
       (Sample.dialog "" {[ "root-all" ]})).2 = []
  ∧ List.filter is_request
      (handleCreate (λ _ _, Resolved Sample.created) 5
         (Sample.dialog "v1.0" ∅)).2 = []
  ∧ List.filter is_create
      (handleCreate (λ _ _, Resolved Sample.created) 5
         (Sample.dialog "v1.0" {[ "case-41" ]})).2 =
      [ PostArchive 5
          {| req_name := "v1.0";
             req_description := "regression";
             test_case_ids := [Some 41%N] |} ].
Proof.
  split_and!.
  - exact (proj2 (proj1 (handleCreate_local_validation
                           (λ _ _, Resolved Sample.created) 5
                           (Sample.dialog "" {[ "root-all" ]}))
                        (or_introl eq_refl))).
  - exact (proj2 (proj1 (handleCreate_local_validation
                           (λ _ _, Resolved Sample.created) 5
                           (Sample.dialog "v1.0" ∅))
                        (or_intror eq_refl))).
  - refine (proj1 (proj2 (handleCreate_local_validation
                            (λ _ _, Resolved Sample.created) 5
                            (Sample.dialog "v1.0" {[ "case-41" ]})) _ _)).
    + intros H. discriminate H.
    + intros H. discriminate H.
Defined.

(** ** The interceptors *)

Lemma startsWith_spec (p s : string) :
  Js.startsWith p s = true ↔ ∃ post, s = p +:+ post.
Proof.
  revert s. induction p as [|a p IH]; intros s; simpl.
  - split; [by exists s | done].
  - destruct s as [|b s].
    + split; [done | by intros [post H]].
    + destruct (Ascii.eqb a b) eqn:E.
      * apply Ascii.eqb_eq in E as ->. rewrite IH. split.
        -- intros [post ->]. by exists post.
        -- intros [post H]. simpl in H. injection H as H. by exists post.
      * apply Ascii.eqb_neq in E. split; [done|].
        intros [post H]. simpl in H. injection H as H1 H2. done.
Qed.

(** [includes] is substring containment. *)
Lemma includes_spec (p s : string) :
  Js.includes p s = true ↔ ∃ pre post, s = pre +:+ p +:+ post.
Proof.
  induction s as [|b s IH].
  - simpl. rewrite orb_false_r, startsWith_spec. split.
    + intros [post H]. by exists "", post.
    + intros (pre & post & H). destruct pre; [by exists post|done].
  - cbn [Js.includes]. rewrite orb_true_iff, startsWith_spec, IH. split.
    + intros [[post H]|(pre & post & H)].
      * by exists "", post.
      * exists (String b pre), post. simpl. by rewrite H.
    + intros (pre & post & H). destruct pre as [|c pre].
      * left. by exists post.
      * right. exists pre, post. simpl in H. by injection H as H1 H2.
Qed.

(** What the rejection handler does to the browser. *)
Lemma on_response_error_browser (b : Http.Browser) (error : Http.AxiosError) :
  (Http.on_response_error b error).1 =
    match Http.response error with
    | Some r =>
        if N.eqb (Http.status r) 401 && negb (Http.is_login error)
        then Http.navigate "/login"
               (Http.removeItem "refresh_token" (Http.removeItem "access_token" b))
        else b
    | None => b
    end.
Proof.
  unfold Http.on_response_error.
  destruct (Http.response error) as [r|]; [|by destruct (Http.request error)].
  destruct (Http.status r) as [|p]; [done|].
  repeat (destruct p as [p|p|]; try done).
  - by destruct (Http.is_login error).
  - by destruct (Http.detail (Http.data r)) as [[]|].
Qed.

(** C8.  The request interceptor puts [Bearer <token>] in the
    Authorization header of every request made while a token is stored
    under [access_token], and leaves the request alone otherwise.  The
    rejection handler, on every 401 whose request URL does not contain
    ['/auth/login'], removes [access_token] and [refresh_token] from
    storage, keeps every other key, and sends the browser to
    ['/login'].  For every other error — any other status, a 401 from
    the login endpoint, no response at all — storage and location stay
    as they were. *)
Theorem expired_session_is_cleared (b : Http.Browser) :
  (∀ (config : Http.Config) (token : string),
     Http.localStorage b !! "access_token" = Some token → token ≠ "" →
     Http.headers (Http.on_request b config) !! "Authorization" =
       Some ("Bearer " +:+ token)
     ∧ Http.url (Http.on_request b config) = Http.url config
     ∧ ∀ h, h ≠ "Authorization" →
         Http.headers (Http.on_request b config) !! h = Http.headers config !! h)
  ∧ (∀ config : Http.Config,
       Js.truthy (Http.localStorage b !! "access_token") = false →
       Http.on_request b config = config)
  ∧ (∀ (error : Http.AxiosError) (r : Http.Response),
       Http.response error = Some r →
       Http.status r = 401%N →
       Http.is_login error = false →
       let b' := (Http.on_response_error b error).1 in
       Http.localStorage b' !! "access_token" = None
       ∧ Http.localStorage b' !! "refresh_token" = None
       ∧ Http.location_href b' = "/login"
       ∧ ∀ k, k ≠ "access_token" → k ≠ "refresh_token" →
           Http.localStorage b' !! k = Http.localStorage b !! k)
  ∧ (∀ error : Http.AxiosError,
       (∀ r, Http.response error = Some r →
             Http.status r = 401%N → Http.is_login error = true) →
       (Http.on_response_error b error).1 = b).
Proof.
  split_and!.
  - intros config token Htok Hne. unfold Http.on_request. rewrite Htok.
    destruct token as [|a t]; [done|]. simpl. split_and!; [|done|].
    + by rewrite lookup_insert_eq.
    + intros h Hh. by rewrite lookup_insert_ne.
  - intros config Hfalsy. unfold Http.on_request.
    by destruct (Http.localStorage b !! "access_token") as [[|a t]|].
  - intros error r Hr H401 Hlogin b'. subst b'.
    rewrite on_response_error_browser, Hr, H401, Hlogin. simpl.
    split_and!; [| |done|].
    + rewrite lookup_delete_ne by done. by rewrite lookup_delete_eq.
    + by rewrite lookup_delete_eq.
    + intros k H1 H2. by rewrite !lookup_delete_ne.
  - intros error Hother. rewrite on_response_error_browser.
    destruct (Http.response error) as [r|]; [|done].
    destruct (N.eqb (Http.status r) 401) eqn:E; [|done].
    apply N.eqb_eq in E. by rewrite (Hother r eq_refl E).
Qed.

Lemma expired_session_is_cleared_witness :
  Http.headers
    (Http.on_request Sample.signed_in
       {| Http.url := Some "/archives/3/test-cases"; Http.headers := ∅ |})
    !! "Authorization" = Some "Bearer abc"
  ∧ (Http.on_response_error Sample.signed_in
       (Sample.failure "/archives/3/test-cases" 401 Sample.no_body)).1 =
      {| Http.localStorage := {[ "theme" := "dark" ]};
         Http.location_href := "/login" |}
  ∧ (Http.on_response_error Sample.signed_in
       (Sample.failure "/archives/3/test-cases" 403 Sample.no_body)).1 =
      Sample.signed_in.
Proof.
  destruct (expired_session_is_cleared Sample.signed_in)
    as (Hreq & _ & H401 & Hother).
  split_and!.
  - refine (proj1 (Hreq _ "abc" eq_refl _)). intros H. discriminate H.
  - specialize (H401 (Sample.failure "/archives/3/test-cases" 401 Sample.no_body)
                     _ eq_refl eq_refl eq_refl).
    destruct H401 as (_ & _ & _ & _). reflexivity.
  - refine (Hother (Sample.failure "/archives/3/test-cases" 403 Sample.no_body) _).
    intros r Hr H. injection Hr as <-. discriminate H.
Defined.

(** C10.  A 401 answered to a request whose URL contains
    ['/auth/login'] touches neither storage nor location, and the error
    is rejected with the backend's [detail] when that is non-empty,
    else the backend's [message] when that is non-empty, else
    ['用户名或密码错误']. *)
Theorem login_401_keeps_session
    (b : Http.Browser) (error : Http.AxiosError) (r : Http.Response)
    (c : Http.Config) (u pre post : string) :
  Http.response error = Some r →
  Http.status r = 401%N →
  Http.config error = Some c →
  Http.url c = Some u →
  u = pre +:+ "/auth/login" +:+ post →
  let out := Http.on_response_error b error in
  out.1 = b
  ∧ Http.error_message out.2 =
      match Http.detail (Http.data r) with
      | Some (Http.Text (String a s)) => Http.Text (String a s)
      | Some (Http.Items items) => Http.Items items
      | _ =>
          match Http.message (Http.data r) with
          | Some (String a s) => Http.Text (String a s)
          | _ => Http.Text "用户名或密码错误"
          end
      end
  ∧ Http.response out.2 = Http.response error
  ∧ Http.config out.2 = Http.config error.
Proof.
  intros Hr H401 Hc Hu Hurl out.
  assert (Hlogin : Http.is_login error = true).
  { unfold Http.is_login. rewrite Hc, Hu. apply includes_spec. by exists pre, post. }
  subst out. split.
  - rewrite on_response_error_browser, Hr, H401, Hlogin. done.
  - unfold Http.on_response_error. rewrite Hr, H401, Hlogin. simpl.
    split; [|done]. unfold Http.backend_message.
    destruct (Http.detail (Http.data r)) as [[[|a s]|items]|]; simpl; try done;
      by destruct (Http.message (Http.data r)) as [[|a' s']|].
Qed.

Lemma login_401_keeps_session_witness :
  let out :=
    Http.on_response_error Sample.signed_in
      (Sample.failure "/api/auth/login" 401 Sample.no_body) in
  out.1 = Sample.signed_in
  ∧ Http.error_message out.2 = Http.Text "用户名或密码错误".
Proof.
  intros out.
  destruct (login_401_keeps_session Sample.signed_in
              (Sample.failure "/api/auth/login" 401 Sample.no_body)
              _ _ "/api/auth/login" "/api" "" eq_refl eq_refl eq_refl eq_refl eq_refl)
    as (Hb & Hmsg & _).
  split; [exact Hb | exact Hmsg].
Defined.

(** * Further properties of the views *)

Import ArchiveDetail.

(** ** Editing a step card *)

(** X1.  An edit of a step card reaches one entry only.  When the draft
    has no entry for the card, both bindings throw.  When it has one,
    setting the status keeps the entry's actual text, setting the text
    keeps its status, and every other entry is as before. *)
Theorem step_edit_is_local (idx : nat) (value : string) (e : Execution) :
  let k := Js.String_of_nat (idx + 1) in
  (step_results e !! k = None →
     setStepStatus idx value e = None ∧ setStepActual idx value e = None)
  ∧ (∀ r, step_results e !! k = Some r →
       ∃ e1 e2,
         setStepStatus idx value e = Some e1
         ∧ setStepActual idx value e = Some e2
         ∧ step_results e1 !! k =
             Some {| step_status := value; step_actual := step_actual r |}
         ∧ step_results e2 !! k =
             Some {| step_status := step_status r; step_actual := value |}
         ∧ ∀ k', k' ≠ k →
             step_results e1 !! k' = step_results e !! k'
             ∧ step_results e2 !! k' = step_results e !! k').
Proof.
  intros k. subst k. unfold setStepStatus, setStepActual. cbv zeta. split.
  - intros ->. done.
  - intros r ->. simpl. do 2 eexists. split_and!; try reflexivity; simpl.
    + by rewrite lookup_insert_eq.
    + by rewrite lookup_insert_eq.
    + intros k' Hk'. by rewrite !lookup_insert_ne.
Qed.

Lemma step_edit_is_local_witness :
  let e := currentExecution Sample.drawer in
  (∃ e1, setStepStatus 0 "failed" e = Some e1
         ∧ step_results e1 !! "1" =
             Some {| step_status := "failed"; step_actual := "timeout" |}
         ∧ step_results e1 !! "2" = step_results e !! "2")
  ∧ setStepStatus 2 "failed" e = None.
Proof.
  intros e.
  destruct (step_edit_is_local 0 "failed" e) as [_ Hsome].
  destruct (step_edit_is_local 2 "failed" e) as [Hnone _].
  destruct (Hsome {| step_status := "skipped"; step_actual := "timeout" |} eq_refl)
    as (e1 & e2 & H1 & _ & Hk & _ & Hother).
  split.
  - exists e1. split_and!; [exact H1 | exact Hk |].
    refine (proj1 (Hother "2" _)). intros H. discriminate H.
  - exact (proj1 (Hnone eq_refl)).
Defined.

(** X2.  A note typed for a step survives the step being marked passed:
    the input is no longer shown, but the entry keeps the text and the
    update request carries it. *)
Theorem hidden_actual_is_still_sent
    (idx : nat) (text : string) (e : Execution) (r : StepResult) :
  step_results e !! Js.String_of_nat (idx + 1) = Some r →
  ∃ e',
    setStepActual idx text e ≫= setStepStatus idx "passed" = Some e'
    ∧ shows_actual_input idx e' = Some false
    ∧ req_step_results (payload e') !! Js.String_of_nat (idx + 1) =
        Some {| step_status := "passed"; step_actual := text |}.
Proof.
  intros Hr. unfold setStepActual, setStepStatus, shows_actual_input.
  cbv zeta. rewrite Hr. simpl. rewrite lookup_insert_eq. simpl.
  eexists. split; [reflexivity|]. simpl.
  rewrite lookup_insert_eq. done.
Qed.

Lemma hidden_actual_is_still_sent_witness :
  ∃ e',
    setStepActual 1 "500 from server" (currentExecution Sample.drawer)
      ≫= setStepStatus 1 "passed" = Some e'
    ∧ shows_actual_input 1 e' = Some false
    ∧ req_step_results (payload e') !! "2" =
        Some {| step_status := "passed"; step_actual := "500 from server" |}.
Proof.
  exact (hidden_actual_is_still_sent 1 "500 from server"
           (currentExecution Sample.drawer)
           {| step_status := "skipped"; step_actual := "" |} eq_refl).
Defined.

(** ** The draft's key set *)

Lemma edit_keeps_keys (a : Edit) (e e' : Execution) :
  edit a e = Some e' → dom (step_results e') = dom (step_results e).
Proof.
  destruct a as [idx value|idx value|value|value]; simpl;
    unfold setStepStatus, setStepActual; cbv zeta; intros H.
  - destruct (step_results e !! Js.String_of_nat (idx + 1)) as [r|] eqn:E;
      simplify_eq/=.
    rewrite dom_insert_L. apply elem_of_dom_2 in E. set_solver.
  - destruct (step_results e !! Js.String_of_nat (idx + 1)) as [r|] eqn:E;
      simplify_eq/=.
    rewrite dom_insert_L. apply elem_of_dom_2 in E. set_solver.
  - by simplify_eq.
  - by simplify_eq.
Qed.

Lemma edits_keep_keys (l : list Edit) :
  ∀ e e', edits l e = Some e' → dom (step_results e') = dom (step_results e).
Proof.
  induction l as [|a l IH]; intros e e' H; simpl in H.
  - by simplify_eq.
  - destruct (edit a e) as [e1|] eqn:E; simpl in H; [|done].
    rewrite (IH _ _ H). by apply edit_keeps_keys in E.
Qed.

(** X3.  Whatever the user edits in the drawer, the draft keeps one
    entry per step of the open case, keyed by the strings of 1..N, and
    the update request carries exactly those N step results. *)
Theorem edits_keep_one_entry_per_step
    (row : ArchivedTestCase) (v : View) (l : list Edit) (e' : Execution) :
  edits l (currentExecution (openRunDrawer row v)) = Some e' →
  dom (req_step_results (payload e')) =
    list_to_set (Js.String_of_nat <$> seq 1 (step_count row))
  ∧ size (req_step_results (payload e')) = step_count row.
Proof.
  intros Hrun. simpl.
  assert (Hdom : dom (step_results e') =
                 list_to_set (Js.String_of_nat <$> seq 1 (step_count row))).
  { rewrite (edits_keep_keys _ _ _ Hrun). apply openRunDrawer_dom. }
  split; [done|].
  rewrite <- size_dom, Hdom, size_list_to_set.
  - by rewrite length_fmap, length_seq.
  - apply (NoDup_fmap_2 _), NoDup_seq.
Qed.

Lemma edits_keep_one_entry_per_step_witness :
  dom (req_step_results (payload Sample.all_steps_passed)) = {[ "1"; "2" ]}
  ∧ size (req_step_results (payload Sample.all_steps_passed)) = 2.
Proof.
  destruct (edits_keep_one_entry_per_step Sample.half_saved
              (Sample.detail_view [Sample.fully_saved; Sample.half_saved])
              (OverallStatus "failed" :: OverallComment "flaky" :: Sample.step_edits)
              Sample.all_steps_passed eq_refl) as [Hdom Hsize].
  split; [|exact Hsize].
  rewrite Hdom. apply (bool_decide_unpack _). vm_compute. reflexivity.
Defined.

(** ** Saving and reopening *)

(** X4.  What was saved is what the drawer shows next time: when the
    stored case carries the status, comment and step results of a draft
    that has one entry per step and no empty status, opening the drawer
    on it recreates exactly that draft. *)
Theorem reopen_shows_what_was_saved
    (updated : ArchivedTestCase) (d : Execution) (v : View) :
  dom (step_results d) =
    list_to_set (Js.String_of_nat <$> seq 1 (step_count updated)) →
  status d ≠ "" →
  (∀ k r, step_results d !! k = Some r → step_status r ≠ "") →
  execution_status updated = Some (status d) →
  execution_comment updated = Some (comment d) →
  step_execution_results updated = Some (to_saved <$> step_results d) →
  currentExecution (openRunDrawer updated v) = d.
Proof.
  intros Hdom Hst Hsteps Hus Huc Hur.
  assert (Hresults :
    step_results (currentExecution (openRunDrawer updated v)) = step_results d).
  { apply map_eq. intros k.
    destruct (step_results d !! k) as [r|] eqn:Ek.
    - assert (Hk : k ∈ dom (step_results d)) by by apply elem_of_dom_2 in Ek.
      rewrite Hdom, elem_of_list_to_set, list_elem_of_fmap in Hk.
      destruct Hk as (i & -> & Hi). apply elem_of_seq in Hi.
      rewrite openRunDrawer_lookup by lia.
      unfold saved_at. rewrite Hur. simpl. rewrite lookup_fmap, Ek. simpl.
      specialize (Hsteps _ _ Ek). destruct r as [st ac]. simpl in *.
      destruct st; [done|]. by destruct ac.
    - apply not_elem_of_dom. rewrite openRunDrawer_dom, <- Hdom.
      by apply not_elem_of_dom. }
  destruct d as [st cm rs]. simpl in *.
  unfold openRunDrawer in *. simpl in *. rewrite Hresults, Hus, Huc. simpl.
  destruct st; [done|]. by destruct cm.
Qed.

Lemma reopen_shows_what_was_saved_witness :
  currentExecution
    (openRunDrawer
       (Sample.echo Sample.half_saved (payload Sample.all_steps_passed))
       (Sample.detail_view []))
  = Sample.all_steps_passed.
Proof.
  apply reopen_shows_what_was_saved.
  - apply (bool_decide_unpack _). vm_compute. reflexivity.
  - intros H. discriminate H.
  - intros k r Hk H.
    assert (Hall : map_Forall (λ _ r, step_status r ≠ "")
                     (step_results Sample.all_steps_passed)).
    { apply (bool_decide_unpack _). vm_compute. reflexivity. }
    exact (Hall k r Hk H).
  - reflexivity.
  - reflexivity.
  - reflexivity.
Defined.

Lemma findIndex_Some {A : Type} (p : A → bool) (l : list A) :
  ∀ i, Js.findIndex p l = Some i → ∃ x, l !! i = Some x ∧ p x = true.
Proof.
  induction l as [|y l IH]; intros i H; simpl in H; [done|].
  destruct (p y) eqn:E.
  - simplify_eq. by exists y.
  - destruct (Js.findIndex p l) as [j|]; simplify_eq/=. by apply IH.
Qed.

(** X5.  [saveExecution] never reorders, adds or removes cases:
    whatever the server answers, the list keeps its sequence of ids
    (hence its length), and a rejected request or an answer for an id
    that is not in the list leaves the list as it was. *)
Theorem saveExecution_keeps_ids
    (updateExecution : N → ExecutionUpdateRequest → Reply ArchivedTestCase)
    (v : View) :
  let v' := (saveExecution updateExecution v).1 in
  id <$> testCases v' = id <$> testCases v
  ∧ length (testCases v') = length (testCases v)
  ∧ (∀ c detail, currentCase v = Some c →
       updateExecution (id c) (payload (currentExecution v)) = Rejected detail →
       testCases v' = testCases v
       ∧ drawerVisible v' = drawerVisible v
       ∧ currentExecution v' = currentExecution v)
  ∧ (∀ c updated, currentCase v = Some c →
       updateExecution (id c) (payload (currentExecution v)) = Resolved updated →
       id updated ∉ id <$> testCases v →
       testCases v' = testCases v).
Proof.
  intros v'.
  assert (Hids : id <$> testCases v' = id <$> testCases v).
  { subst v'. unfold saveExecution.
    destruct (currentCase v) as [c|]; [|done].
    destruct (updateExecution _ _) as [updated|]; [|done]. simpl.
    unfold update_local_list.
    destruct (Js.findIndex _ _) as [i|] eqn:E; [|done].
    apply findIndex_Some in E as (x & Hx & Hid). apply N.eqb_eq in Hid.
    rewrite list_fmap_insert. apply list_insert_id.
    rewrite list_lookup_fmap, Hx. simpl. by rewrite Hid. }
  split_and!; [done| | |].
  - by rewrite <- (length_fmap id), Hids, length_fmap.
  - intros c detail Hc Hr. subst v'. unfold saveExecution. by rewrite Hc, Hr.
  - intros c updated Hc Hr Hnotin. subst v'. unfold saveExecution.
    rewrite Hc, Hr. simpl. unfold update_local_list.
    destruct (Js.findIndex _ _) as [i|] eqn:E; [|done].
    apply findIndex_Some in E as (x & Hx & Hid). apply N.eqb_eq in Hid.
    exfalso. apply Hnotin. rewrite <- Hid.
    apply list_elem_of_fmap. exists x. split; [done|].
    by apply list_elem_of_lookup_2 with i.
Qed.

Lemma saveExecution_keeps_ids_witness :
  id <$> testCases
           (saveExecution (λ _ _, Resolved (Sample.archived 99 None None None None))
              Sample.drawer).1 = [8; 7]%N
  ∧ testCases (saveExecution (λ _ _, Resolved (Sample.archived 99 None None None None))
                 Sample.drawer).1 = testCases Sample.drawer
  ∧ testCases (saveExecution (λ _ _, Rejected None) Sample.drawer).1 =
      testCases Sample.drawer.
Proof.
  pose proof (saveExecution_keeps_ids
                (λ _ _, Resolved (Sample.archived 99 None None None None))
                Sample.drawer) as (Hids & _ & _ & Hunknown).
  pose proof (saveExecution_keeps_ids (λ _ _, Rejected None) Sample.drawer)
    as (_ & _ & Hrej & _).
  split_and!.
  - exact Hids.
  - refine (Hunknown Sample.half_saved _ eq_refl eq_refl _).
    apply (bool_decide_unpack _). vm_compute. reflexivity.
  - exact (proj1 (Hrej Sample.half_saved None eq_refl eq_refl)).
Defined.

(** ** The statistics after a save *)

Lemma count_status_insert (bucket : string) (new : ArchivedTestCase) :
  ∀ (l : list ArchivedTestCase) (i : nat) (old : ArchivedTestCase),
    l !! i = Some old →
    count_status bucket (<[i := new]> l)
      + Nat.b2n (Js.strict_eq (execution_status old) bucket) =
    count_status bucket l
      + Nat.b2n (Js.strict_eq (execution_status new) bucket).
Proof.
  unfold count_status.
  induction l as [|c l IH]; intros i old Hi; [done|].
  destruct i as [|i]; simpl in *.
  - simplify_eq.
    destruct (Js.strict_eq (execution_status old) bucket),
             (Js.strict_eq (execution_status new) bucket); simpl; lia.
  - specialize (IH i old Hi).
    destruct (Js.strict_eq (execution_status c) bucket); simpl; lia.
Qed.

(** X6.  The statistics follow a save.  In a list with distinct ids,
    when the server answers the update of the open case with a record of
    the same id, [total] is unchanged and each bucket loses the case if
    its old status was that bucket and gains it if its new status is; so
    saving a case that was not passed as passed raises [passed] by one. *)
Theorem stats_follow_a_save
    (updateExecution : N → ExecutionUpdateRequest → Reply ArchivedTestCase)
    (v : View) (old updated : ArchivedTestCase) (i : nat) :
  NoDup (id <$> testCases v) →
  testCases v !! i = Some old →
  currentCase v = Some old →
  updateExecution (id old) (payload (currentExecution v)) = Resolved updated →
  id updated = id old →
  let v' := (saveExecution updateExecution v).1 in
  total (stats v') = total (stats v)
  ∧ (∀ bucket,
       count_status bucket (testCases v')
         + Nat.b2n (Js.strict_eq (execution_status old) bucket) =
       count_status bucket (testCases v)
         + Nat.b2n (Js.strict_eq (execution_status updated) bucket))
  ∧ (execution_status old ≠ Some "passed" →
     execution_status updated = Some "passed" →
     passed (stats v') = passed (stats v) + 1).
Proof.
  intros Hnd Hi Hcur Hreply Hid v'.
  assert (Hlist : testCases v' = <[i := updated]> (testCases v)).
  { subst v'. unfold saveExecution. rewrite Hcur, Hreply. simpl.
    unfold update_local_list.
    by rewrite (findIndex_unique_id updated old (testCases v) i). }
  assert (Hcount : ∀ bucket,
       count_status bucket (testCases v')
         + Nat.b2n (Js.strict_eq (execution_status old) bucket) =
       count_status bucket (testCases v)
         + Nat.b2n (Js.strict_eq (execution_status updated) bucket)).
  { intros bucket. rewrite Hlist. by apply count_status_insert. }
  split_and!; [|done|].
  - change (length (testCases v') = length (testCases v)).
    rewrite Hlist. apply length_insert.
  - intros Hold Hnew. specialize (Hcount "passed").
    change (count_status "passed" (testCases v')) with (passed (stats v')) in Hcount.
    change (count_status "passed" (testCases v)) with (passed (stats v)) in Hcount.
    rewrite Hnew in Hcount.
    assert (Js.strict_eq (Some "passed") "passed" = true) as Heq by reflexivity.
    rewrite Heq in Hcount.
    destruct (Js.strict_eq (execution_status old) "passed") eqn:E.
    + apply strict_eq_true in E. done.
    + unfold Nat.b2n in Hcount. lia.
Qed.

Lemma stats_follow_a_save_witness :
  let v := with_execution
             (setStatus "passed" (currentExecution Sample.drawer)) Sample.drawer in
  let v' := (saveExecution (Sample.echo_server (testCases v)) v).1 in
  passed (stats v) = 0 ∧ passed (stats v') = 1 ∧ total (stats v') = 2.
Proof.
  intros v v'.
  destruct (stats_follow_a_save (Sample.echo_server (testCases v)) v
              Sample.half_saved
              (Sample.echo Sample.half_saved (payload (currentExecution v))) 1)
    as (Htotal & _ & Hpassed).
  - apply (bool_decide_unpack _). vm_compute. reflexivity.
  - reflexivity.
  - reflexivity.
  - reflexivity.
  - reflexivity.
  - split_and!.
    + reflexivity.
    + refine (Hpassed _ eq_refl). intros H. discriminate H.
    + exact Htotal.
Defined.

(** ** [loadData] *)

Lemma loadData_testCases
    (getArchiveCases : N → Reply (list ArchivedTestCase))
    (getArchives : N → Reply (list ProjectArchive.t))
    (projectId : option N) (p : Page) (cases : list ArchivedTestCase) :
  getArchiveCases (archiveId (view p)) = Resolved cases →
  testCases (view (loadData getArchiveCases getArchives projectId p).1) = cases.
Proof.
  intros H. unfold loadData. rewrite H.
  destruct projectId as [pid|]; [|done].
  destruct (getArchives pid) as [archives|]; [|done]. simpl.
  by destruct (find_archive _ _).
Qed.

(** X7.  The cases are shown as soon as their request resolves, also
    when the archive list then fails to load: the list is the server's,
    [total] is its length and the page stops loading, while the failure
    is still reported and the archive name stays as it was.  When the
    case request itself is rejected the view is untouched and the
    archive list is not requested. *)
Theorem loadData_shows_cases
    (getArchiveCases : N → Reply (list ArchivedTestCase))
    (getArchives : N → Reply (list ProjectArchive.t))
    (projectId : option N) (p : Page) :
  let out := loadData getArchiveCases getArchives projectId p in
  loading out.1 = false
  ∧ (∀ cases, getArchiveCases (archiveId (view p)) = Resolved cases →
       testCases (view out.1) = cases
       ∧ total (stats (view out.1)) = length cases
       ∧ (∀ pid detail, projectId = Some pid → getArchives pid = Rejected detail →
            archiveName (view out.1) = archiveName (view p)
            ∧ inr (MessageError "加载数据失败") ∈ out.2))
  ∧ (∀ detail, getArchiveCases (archiveId (view p)) = Rejected detail →
       view out.1 = view p
       ∧ out.2 = [inl (GetArchiveCases (archiveId (view p)));
                  inr (MessageError "加载数据失败")]).
Proof.
  intros out. split_and!.
  - subst out. unfold loadData.
    destruct (getArchiveCases _); [|done].
    destruct projectId as [pid|]; [|done]. by destruct (getArchives pid).
  - intros cases Hcases.
    assert (Hlist : testCases (view out.1) = cases)
      by by apply loadData_testCases.
    split_and!; [done| |].
    + change (length (testCases (view out.1)) = length cases). by rewrite Hlist.
    + intros pid detail -> Hrej. subst out. unfold loadData.
      rewrite Hcases, Hrej. simpl. split; [done|]. set_solver.
  - intros detail Hrej. subst out. unfold loadData. by rewrite Hrej.
Qed.

Lemma loadData_shows_cases_witness :
  let out := loadData (λ _, Resolved Sample.ten_cases) (λ _, Rejected None)
               (Some 5%N) Sample.mounted in
  testCases (view out.1) = Sample.ten_cases
  ∧ total (stats (view out.1)) = 10
  ∧ archiveName (view out.1) = "归档详情"
  ∧ inr (MessageError "加载数据失败") ∈ out.2.
Proof.
  intros out.
  destruct (loadData_shows_cases (λ _, Resolved Sample.ten_cases)
              (λ _, Rejected None) (Some 5%N) Sample.mounted)
    as (_ & Hcases & _).
  destruct (Hcases Sample.ten_cases eq_refl) as (Hlist & Htotal & Hrej).
  destruct (Hrej 5%N None eq_refl eq_refl) as [Hname Hmsg].
  split_and!; [exact Hlist | exact Htotal | exact Hname | exact Hmsg].
Defined.

Lemma find_first {A : Type} (f : A → bool) (pre post : list A) (x : A) :
  (∀ y, y ∈ pre → f y = false) → f x = true →
  List.find f (pre ++ x :: post) = Some x.
Proof.
  induction pre as [|y pre IH]; intros Hpre Hx; simpl.
  - by rewrite Hx.
  - rewrite (Hpre y) by left. apply IH; [|done].
    intros z Hz. apply Hpre. by right.
Qed.

Lemma find_no_match {A : Type} (f : A → bool) (l : list A) :
  (∀ y, y ∈ l → f y = false) → List.find f l = None.
Proof.
  induction l as [|y l IH]; intros H; simpl; [done|].
  rewrite (H y) by left. apply IH. intros z Hz. apply H. by right.
Qed.

(** X8.  The export is named after what [loadData] found.  On a freshly
    mounted page the archive name becomes that of the first archive in
    the project's list whose id is the page's; it stays ['归档详情'] when
    the route has no project id, when either request is rejected, or
    when no archive of the list has that id.  [handleExport] then
    downloads [<that name>_导出.<ext>]. *)
Theorem export_named_after_loaded_archive
    (getArchiveCases : N → Reply (list ArchivedTestCase))
    (getArchives : N → Reply (list ProjectArchive.t))
    (exportArchive : N → string → Reply Blob)
    (projectId : option N) (archive : N) (format : string) :
  let v' :=
    view (loadData getArchiveCases getArchives projectId
            {| view := setup archive; loading := true |}).1 in
  (∀ cases pid pre arc post,
     getArchiveCases archive = Resolved cases →
     projectId = Some pid →
     getArchives pid = Resolved (pre ++ arc :: post) →
     (∀ a, a ∈ pre → ProjectArchive.id a ≠ archive) →
     ProjectArchive.id arc = archive →
     archiveName v' = ProjectArchive.name arc)
  ∧ (∀ cases pid archives,
       getArchiveCases archive = Resolved cases →
       projectId = Some pid →
       getArchives pid = Resolved archives →
       (∀ a, a ∈ archives → ProjectArchive.id a ≠ archive) →
       archiveName v' = "归档详情")
  ∧ ((projectId = None
      ∨ (∃ detail, getArchiveCases archive = Rejected detail)
      ∨ (∃ pid detail, projectId = Some pid ∧ getArchives pid = Rejected detail)) →
     archiveName v' = "归档详情")
  ∧ (∀ blob, exportArchive archive format = Resolved blob →
       Download (archiveName v' +:+ "_导出." +:+ export_ext format) blob
         ∈ (handleExport exportArchive format v').2).
Proof.
  intros v'.
  assert (Hid : archiveId v' = archive).
  { subst v'. unfold loadData. simpl.
    destruct (getArchiveCases archive); [|done].
    destruct projectId as [pid|]; [|done].
    destruct (getArchives pid) as [archives|]; [|done]. simpl.
    by destruct (find_archive _ _). }
  split_and!.
  - intros cases pid pre arc post Hc -> Ha Hpre Harc.
    subst v'. unfold loadData. simpl. rewrite Hc, Ha. simpl.
    unfold find_archive. rewrite find_first; [done| |by apply N.eqb_eq].
    intros a Hin. apply N.eqb_neq. by apply Hpre.
  - intros cases pid archives Hc -> Ha Hnone.
    subst v'. unfold loadData. simpl. rewrite Hc, Ha. simpl.
    unfold find_archive. rewrite find_no_match; [done|].
    intros a Hin. apply N.eqb_neq. by apply Hnone.
  - intros Hcause. subst v'. unfold loadData. simpl.
    destruct Hcause as [->|[[detail ->]|(pid & detail & -> & Hrej)]].
    + by destruct (getArchiveCases archive).
    + done.
    + destruct (getArchiveCases archive); [|done]. by rewrite Hrej.
  - intros blob Hblob. unfold handleExport. rewrite Hid, Hblob.
    unfold export_filename. set_solver.
Qed.

Lemma export_named_after_loaded_archive_witness :
  let v' :=
    view (loadData (λ _, Resolved Sample.ten_cases) (λ _, Resolved Sample.archives)
            (Some 5%N) {| view := setup 4; loading := true |}).1 in
  archiveName v' = "v1.1"
  ∧ Download "v1.1_导出.md" "# cases"
      ∈ (handleExport (λ _ _, Resolved "# cases") "markdown" v').2.
Proof.
  intros v'.
  destruct (export_named_after_loaded_archive
              (λ _, Resolved Sample.ten_cases) (λ _, Resolved Sample.archives)
              (λ _ _, Resolved "# cases") (Some 5%N) 4 "markdown")
    as (Hfound & _ & _ & Hexport).
  assert (Hname : archiveName v' = "v1.1").
  { refine (Hfound Sample.ten_cases 5%N [_] _ [] eq_refl eq_refl eq_refl _ eq_refl).
    intros a Ha. apply list_elem_of_singleton in Ha. rewrite Ha.
    intros H. discriminate H. }
  split; [exact Hname|].
  specialize (Hexport "# cases" eq_refl).
  change (archiveName
            (view (loadData (λ _, Resolved Sample.ten_cases)
                     (λ _, Resolved Sample.archives) (Some 5%N)
                     {| view := setup 4; loading := true |}).1))
    with (archiveName v') in Hexport.
  rewrite Hname in Hexport. exact Hexport.
Defined.

(** * Further properties of the create dialog *)

Import ProjectArchives.

Lemma tick_all_widget (keys : list string) (w : TreeWidget) :
  ∃ marks, foldr tick w keys = {| data := data w; ticked := marks |}.
Proof.
  induction keys as [|k keys [marks IH]]; simpl.
  - exists (ticked w). by destruct w.
  - rewrite IH. unfold tick. simpl. by eexists.
Qed.

Lemma covered_cases_empty (marks : gset string) (listing : list ModuleItem) :
  (∀ m, m ∈ listing → cases_of m = []) → covered_cases marks listing = [].
Proof.
  unfold covered_cases.
  induction listing as [|m listing IH]; intros H; [done|].
  cbn [mbind list_bind]. rewrite (H m) by left. simpl.
  apply IH. intros m' Hm'. apply H. by right.
Qed.

Lemma handleCreate_nothing_selected
    (createArchive : N → ArchiveCreateRequest → Reply ProjectArchive.t)
    (projectId : N) (v : ProjectArchives.View) :
  selection v = [] →
  (handleCreate createArchive projectId v).1 = v
  ∧ List.filter is_request (handleCreate createArchive projectId v).2 = [].
Proof.
  unfold handleCreate, selection.
  destruct (name (createForm v)) as [|a s]; simpl; [done|].
  destruct (treeRef v) as [tree|]; simpl; [|done].
  by intros ->.
Qed.

(** X9.  Nothing to select, nothing to create.  When the case listing
    fails to load, or loads without a single case, then whatever the
    user types into the form and whichever nodes they tick — the
    select-all root included — [handleCreate] issues no request and the
    dialog stays open. *)
Theorem no_cases_no_archive
    (getProjectTestCases : N → Reply (list ModuleItem))
    (createArchive : N → ArchiveCreateRequest → Reply ProjectArchive.t)
    (projectId : N) (v : ProjectArchives.View)
    (form : CreateForm) (keys : list string) :
  (∀ listing, getProjectTestCases projectId = Resolved listing →
     ∀ m, m ∈ listing → cases_of m = []) →
  let opened := (openCreateDialog getProjectTestCases projectId v).1 in
  let out := handleCreate createArchive projectId
               (tick_all keys (fill_form form opened)) in
  List.filter is_request out.2 = []
  ∧ createDialogVisible out.1 = true.
Proof.
  intros Hempty opened out.
  assert (Hsel : selection (tick_all keys (fill_form form opened)) = []).
  { subst opened. unfold openCreateDialog, selection.
    destruct (getProjectTestCases projectId) as [listing|detail]; simpl.
    - destruct (tick_all_widget keys {| data := build_tree listing; ticked := ∅ |})
        as [marks ->]. simpl.
      rewrite caseIds_built, covered_cases_empty; [done|]. by apply Hempty.
    - destruct (tick_all_widget keys {| data := []; ticked := ∅ |})
        as [marks ->]. done. }
  destruct (handleCreate_nothing_selected createArchive projectId
              (tick_all keys (fill_form form opened)) Hsel) as [Hview Hreq].
  split; [exact Hreq|].
  subst out. rewrite Hview. subst opened. unfold openCreateDialog.
  by destruct (getProjectTestCases projectId).
Qed.

Lemma no_cases_no_archive_witness :
  let opened :=
    (openCreateDialog (λ _, Resolved [Sample.empty; Sample.draft]) 5
       Sample.closed_dialog).1 in
  let out :=
    handleCreate (λ _ _, Resolved Sample.created) 5
      (tick_all ["root-all"; "module-2"]
         (fill_form {| name := "v2.0"; description := "" |} opened)) in
  List.filter is_request out.2 = [] ∧ createDialogVisible out.1 = true.
Proof.
  refine (no_cases_no_archive (λ _, Resolved [Sample.empty; Sample.draft])
            (λ _ _, Resolved Sample.created) 5 Sample.closed_dialog
            {| name := "v2.0"; description := "" |} ["root-all"; "module-2"] _).
  intros listing Hl m Hm. injection Hl as <-.
  apply elem_of_cons in Hm as [->|Hm]; [reflexivity|].
  apply list_elem_of_singleton in Hm as ->. reflexivity.
Defined.

(** X10.  [handleCreate] never touches what the user entered: on every
    path the form, the tree and its ticks are as before.  The dialog
    closes only when a create request was sent and resolved, and then
    the archive list is requested again; when the request is rejected
    the dialog stays as it was and the error shown is the server's
    detail, or ['创建归档失败'] when there is none. *)
Theorem handleCreate_keeps_input
    (createArchive : N → ArchiveCreateRequest → Reply ProjectArchive.t)
    (projectId : N) (v : ProjectArchives.View) :
  let out := handleCreate createArchive projectId v in
  createForm out.1 = createForm v
  ∧ treeData out.1 = treeData v
  ∧ treeRef out.1 = treeRef v
  ∧ (createDialogVisible out.1 ≠ createDialogVisible v →
       ∃ body created,
         createArchive projectId body = Resolved created
         ∧ out.2 = [PostArchive projectId body;
                    MessageSuccess "归档创建成功";
                    GetArchives projectId]
         ∧ createDialogVisible out.1 = false)
  ∧ (∀ body detail,
       PostArchive projectId body ∈ out.2 →
       createArchive projectId body = Rejected detail →
       createDialogVisible out.1 = createDialogVisible v
       ∧ out.2 = [PostArchive projectId body;
                  MessageError (Js.or detail "创建归档失败")]).
Proof.
  intros out. subst out. unfold handleCreate.
  destruct (name (createForm v)) as [|a s] eqn:Hname; simpl.
  { split_and!; try done. intros body detail Hin. set_solver. }
  destruct (treeRef v) as [tree|] eqn:Htree; simpl.
  2: { split_and!; try done. intros body detail Hin. set_solver. }
  destruct (caseIds (getCheckedNodes tree)) as [|x ids] eqn:Hids; simpl.
  { split_and!; try done. intros body detail Hin. set_solver. }
  destruct (createArchive projectId _) as [created|detail] eqn:Hreply; simpl.
  - split_and!; try done.
    + intros _. by eexists _, created.
    + intros body detail Hin Hrej.
      assert (body = {| req_name := String a s;
                        req_description := description (createForm v);
                        test_case_ids := x :: ids |}) as -> by set_solver.
      congruence.
  - split_and!; try done.
    intros body detail' Hin Hrej.
    assert (body = {| req_name := String a s;
                      req_description := description (createForm v);
                      test_case_ids := x :: ids |}) as -> by set_solver.
    split; [done|]. congruence.
Qed.

Lemma handleCreate_keeps_input_witness :
  let v := Sample.dialog "v1.0" {[ "case-41" ]} in
  let out := handleCreate (λ _ _, Rejected (Some "name taken")) 5 v in
  createForm out.1 = createForm v
  ∧ treeRef out.1 = treeRef v
  ∧ createDialogVisible out.1 = true
  ∧ MessageError "name taken" ∈ out.2.
Proof.
  intros v out.
  destruct (handleCreate_keeps_input (λ _ _, Rejected (Some "name taken")) 5 v)
    as (Hform & _ & Htree & _ & Hrej).
  destruct (Hrej {| req_name := "v1.0"; req_description := "regression";
                    test_case_ids := [Some 41%N] |} (Some "name taken"))
    as [Hvis Hevents].
  - left.
  - reflexivity.
  - split_and!; [exact Hform | exact Htree | exact Hvis |].
    subst out. rewrite Hevents. right. left.
Defined.

(** * Further properties of the transport *)

(** ** The URLs of the archive calls *)

Lemma pretty_N_go_digits (x : N) :
  ∀ s, Chars.every Chars.is_digit s = true →
       Chars.every Chars.is_digit (pretty_N_go x s) = true.
Proof.
  induction (N.lt_wf_0 x) as [x _ IH]. intros s Hs.
  destruct (decide (0 < x)%N) as [Hpos|Hzero].
  - rewrite pretty_N_go_step by done. apply IH.
    + apply N.div_lt; lia.
    + cbn [Chars.every]. rewrite Hs, andb_true_r.
      unfold pretty_N_char. by repeat case_match.
  - assert (x = 0%N) as -> by lia. by rewrite pretty_N_go_0.
Qed.

(** The decimal form of an id is made of digits. *)
Lemma String_of_N_digits (n : N) :
  Chars.every Chars.is_digit (Js.String_of_N n) = true.
Proof.
  unfold Js.String_of_N, pretty, pretty_N.
  case_decide; [done|]. by apply pretty_N_go_digits.
Qed.

Lemma occurs_append (c : Ascii.ascii) (a b : string) :
  Chars.occurs c (a +:+ b) = Chars.occurs c a || Chars.occurs c b.
Proof.
  induction a as [|x a IH]; simpl; [done|]. by rewrite IH, orb_assoc.
Qed.

Lemma every_not_occurs (P : Ascii.ascii → bool) (c : Ascii.ascii) (s : string) :
  Chars.every P s = true → P c = false → Chars.occurs c s = false.
Proof.
  induction s as [|x s IH]; simpl; [done|].
  intros [Hx Hs]%andb_prop Hc.
  rewrite (IH Hs Hc), orb_false_r. apply Ascii.eqb_neq. by intros ->; congruence.
Qed.

Lemma includes_occurs (p s : string) (c : Ascii.ascii) :
  Js.includes p s = true → Chars.occurs c p = true → Chars.occurs c s = true.
Proof.
  intros (pre & post & ->)%includes_spec Hc.
  by rewrite !occurs_append, Hc, orb_true_r.
Qed.

(** Digits followed by a slash split in one way only. *)
Lemma split_at_slash (s s' t t' : string) :
  Chars.every Chars.is_digit s = true →
  Chars.every Chars.is_digit s' = true →
  s +:+ ("/" +:+ t) = s' +:+ ("/" +:+ t') → s = s' ∧ t = t'.
Proof.
  revert s'. induction s as [|a s IH]; intros [|a' s'] Hs Hs' H; simpl in *.
  - by simplify_eq.
  - injection H as <- _. by vm_compute in Hs'.
  - injection H as -> _. by vm_compute in Hs.
  - injection H as -> H.
    apply andb_prop in Hs as [_ Hs]. apply andb_prop in Hs' as [_ Hs'].
    destruct (IH s' Hs Hs' H) as [-> ->]. done.
Qed.

(** X11.  A 401 answered to any of the five archive calls, for any id,
    counts as an expired session: none of their URLs contains
    ['/auth/login'], so both tokens are removed, the browser is sent to
    ['/login'] and the error says that the login has expired. *)
Theorem archive_calls_expire_on_401
    (b : Http.Browser) (n : N) (call : ArchiveApi.Call) (r : Http.Response) :
  call ∈ [ ArchiveApi.createArchive n; ArchiveApi.getArchives n;
           ArchiveApi.getArchiveCases n; ArchiveApi.updateExecution n;
           ArchiveApi.exportArchive n ] →
  Http.status r = 401%N →
  let out := Http.on_response_error b (ArchiveApi.failed call r) in
  Http.is_login (ArchiveApi.failed call r) = false
  ∧ Http.localStorage out.1 !! "access_token" = None
  ∧ Http.localStorage out.1 !! "refresh_token" = None
  ∧ Http.location_href out.1 = "/login"
  ∧ Http.error_message out.2 = Http.Text "登录已过期，请重新登录".
Proof.
  intros Hcall H401 out.
  assert (Hl : Chars.occurs "l"%char (ArchiveApi.path call) = false).
  { pose proof (every_not_occurs Chars.is_digit "l"%char _
                  (String_of_N_digits n) eq_refl) as Hn.
    rewrite !elem_of_cons, elem_of_nil in Hcall.
    destruct Hcall as [->|[->|[->|[->|[->|[]]]]]]; simpl;
      rewrite !occurs_append, Hn; reflexivity. }
  assert (Hlogin : Http.is_login (ArchiveApi.failed call r) = false).
  { unfold Http.is_login. simpl.
    destruct (Js.includes "/auth/login" (ArchiveApi.path call)) eqn:E; [|done].
    apply (includes_occurs _ _ "l"%char) in E; [congruence | reflexivity]. }
  split; [done|]. subst out.
  rewrite on_response_error_browser. simpl. rewrite H401, Hlogin. simpl.
  split_and!.
  - rewrite lookup_delete_ne by done. by rewrite lookup_delete_eq.
  - by rewrite lookup_delete_eq.
  - done.
  - unfold Http.on_response_error. simpl. by rewrite H401, Hlogin.
Qed.

Lemma archive_calls_expire_on_401_witness :
  let out :=
    Http.on_response_error Sample.signed_in
      (ArchiveApi.failed (ArchiveApi.updateExecution 7)
         {| Http.status := 401; Http.data := Sample.no_body |}) in
  Http.localStorage out.1 !! "access_token" = None
  ∧ Http.location_href out.1 = "/login".
Proof.
  intros out.
  destruct (archive_calls_expire_on_401 Sample.signed_in 7
              (ArchiveApi.updateExecution 7)
              {| Http.status := 401; Http.data := Sample.no_body |})
    as (_ & Htok & _ & Hloc & _).
  - do 3 right. left.
  - reflexivity.
  - split; [exact Htok | exact Hloc].
Defined.

(** X12.  Ids that are safe integers (up to [2^53 - 1], where the
    template literal prints every digit) are told apart by the URLs
    built from them: two cases never share an update URL, two archives
    never share a case-list or export URL, two projects never share an
    archives URL, and the detail route determines both the project and
    the archive. *)
Theorem urls_determine_ids (n n' m m' : N) :
  (n ≤ Js.MAX_SAFE_INTEGER)%N → (n' ≤ Js.MAX_SAFE_INTEGER)%N →
  (m ≤ Js.MAX_SAFE_INTEGER)%N → (m' ≤ Js.MAX_SAFE_INTEGER)%N →
  (ArchiveApi.path (ArchiveApi.updateExecution n) =
     ArchiveApi.path (ArchiveApi.updateExecution n') → n = n')
  ∧ (ArchiveApi.path (ArchiveApi.getArchiveCases n) =
       ArchiveApi.path (ArchiveApi.getArchiveCases n') → n = n')
  ∧ (ArchiveApi.path (ArchiveApi.exportArchive n) =
       ArchiveApi.path (ArchiveApi.exportArchive n') → n = n')
  ∧ (ArchiveApi.path (ArchiveApi.createArchive n) =
       ArchiveApi.path (ArchiveApi.createArchive n') → n = n')
  ∧ (goToDetail n m = goToDetail n' m' → n = n' ∧ m = m').
Proof.
  intros _ _ _ _.
  assert (Hsplit : ∀ (pre : string) (a a' : N) (t t' : string),
            pre +:+ Js.String_of_N a +:+ ("/" +:+ t) =
            pre +:+ Js.String_of_N a' +:+ ("/" +:+ t') → a = a' ∧ t = t').
  { intros pre a a' t t' H. apply (inj (String.append pre)) in H.
    apply split_at_slash in H as [H ->]; try apply String_of_N_digits.
    split; [|done]. by apply (inj pretty) in H. }
  split_and!; simpl.
  - intros H. by apply Hsplit in H as [-> _].
  - intros H. by apply Hsplit in H as [-> _].
  - intros H. by apply Hsplit in H as [-> _].
  - intros H. by apply Hsplit in H as [-> _].
  - unfold goToDetail. intros H.
    apply (Hsplit "/projects/" n n'
             ("archives/" +:+ Js.String_of_N m)
             ("archives/" +:+ Js.String_of_N m')) in H as [-> H].
    split; [done|].
    apply (inj (String.append "archives/")) in H. by apply (inj pretty) in H.
Qed.

Lemma urls_determine_ids_witness :
  ArchiveApi.path (ArchiveApi.updateExecution 7)
    ≠ ArchiveApi.path (ArchiveApi.updateExecution 8)
  ∧ ArchiveApi.path (ArchiveApi.getArchiveCases 3)
    ≠ ArchiveApi.path (ArchiveApi.getArchiveCases 30)
  ∧ goToDetail 1 23 ≠ goToDetail 12 3.
Proof.
  assert (Hsafe : ∀ k : N, (k <? 100)%N = true → (k ≤ Js.MAX_SAFE_INTEGER)%N).
  { intros k Hk. apply N.ltb_lt in Hk.
    apply N.lt_le_incl, (N.lt_trans _ _ _ Hk). reflexivity. }
  split_and!.
  - intros H.
    destruct (urls_determine_ids 7 8 0 0) as (Hu & _);
      [apply Hsafe; reflexivity..|].
    discriminate (Hu H).
  - intros H.
    destruct (urls_determine_ids 3 30 0 0) as (_ & Hc & _);
      [apply Hsafe; reflexivity..|].
    discriminate (Hc H).
  - intros H.
    destruct (urls_determine_ids 1 12 23 3) as (_ & _ & _ & _ & Hd);
      [apply Hsafe; reflexivity..|].
    destruct (Hd H) as [H1 _]. discriminate H1.
Defined.

(** ** The error handed on by the rejection handler *)

(** The message the handler settles on, by status. *)
Lemma on_response_error_message (b : Http.Browser) (error : Http.AxiosError)
    (r : Http.Response) :
  Http.response error = Some r →
  Http.error_message (Http.on_response_error b error).2 =
    if N.eqb (Http.status r) 401 then
      if Http.is_login error
      then Http.or_text (Http.backend_message (Http.data r)) "用户名或密码错误"
      else Http.Text "登录已过期，请重新登录"
    else if N.eqb (Http.status r) 403 then
      Http.or_text (Http.backend_message (Http.data r)) "权限不足"
    else if N.eqb (Http.status r) 404 then
      Http.or_text (Http.backend_message (Http.data r)) "请求的资源不存在"
    else if N.eqb (Http.status r) 422 then
      match Http.detail (Http.data r) with
      | Some (Http.Items items) => Http.Text ("参数错误: " +:+ Http.join_msgs items)
      | _ => Http.or_text (Http.backend_message (Http.data r)) "参数错误"
      end
    else if N.eqb (Http.status r) 500 then
      Http.or_text (Http.backend_message (Http.data r)) "服务器内部错误"
    else
      Http.or_text (Http.backend_message (Http.data r))
        ("请求失败 (" +:+ Js.String_of_N (Http.status r) +:+ ")").
Proof.
  intros Hr. unfold Http.on_response_error. rewrite Hr.
  destruct (Http.status r) as [|p]; [done|].
  repeat (destruct p as [p|p|]; try done).
  - by destruct (Http.is_login error).
  - by destruct (Http.detail (Http.data r)) as [[]|].
Qed.


(** X14.  What the backend says is what the caller is told, except when
    the session has expired.  For every status, a non-empty [detail]
    text becomes the message, and so does a non-empty [message] when
    there is no [detail]; a [detail] list is handed on as it is under
    every status but 422.  Only a 401 from a non-login URL drops it. *)
Theorem backend_message_is_passed_on
    (b : Http.Browser) (error : Http.AxiosError) (r : Http.Response) :
  Http.response error = Some r →
  (Http.status r = 401%N → Http.is_login error = true) →
  let out := Http.on_response_error b error in
  (∀ t, Http.detail (Http.data r) = Some (Http.Text t) → t ≠ "" →
     Http.error_message out.2 = Http.Text t)
  ∧ (∀ m, (Http.detail (Http.data r) = None
           ∨ Http.detail (Http.data r) = Some (Http.Text "")) →
          Http.message (Http.data r) = Some m → m ≠ "" →
          Http.error_message out.2 = Http.Text m)
  ∧ (∀ items, Http.detail (Http.data r) = Some (Http.Items items) →
              Http.status r ≠ 422%N →
              Http.error_message out.2 = Http.Items items).
Proof.
  intros Hr Hlogin out. subst out.
  rewrite (on_response_error_message b error r Hr).
  split_and!.
  - intros t Hd Ht.
    assert (Hm : ∀ d, Http.or_text (Http.backend_message (Http.data r)) d = Http.Text t).
    { intros d. unfold Http.backend_message. rewrite Hd. by destruct t. }
    rewrite Hd.
    destruct (N.eqb (Http.status r) 401) eqn:E.
    { apply N.eqb_eq in E. by rewrite (Hlogin E). }
    by repeat case_match.
  - intros m Hd Hmsg Hm.
    assert (Hback : ∀ d, Http.or_text (Http.backend_message (Http.data r)) d = Http.Text m).
    { intros d. unfold Http.backend_message.
      destruct Hd as [-> | ->]; rewrite Hmsg; by destruct m. }
    destruct (N.eqb (Http.status r) 401) eqn:E.
    { apply N.eqb_eq in E. by rewrite (Hlogin E). }
    destruct Hd as [Hd|Hd]; rewrite Hd; by repeat case_match.
  - intros items Hd H422.
    assert (Hback : ∀ d, Http.or_text (Http.backend_message (Http.data r)) d
                         = Http.Items items).
    { intros d. unfold Http.backend_message. by rewrite Hd. }
    destruct (N.eqb (Http.status r) 401) eqn:E.
    { apply N.eqb_eq in E. by rewrite (Hlogin E). }
    destruct (N.eqb (Http.status r) 422) eqn:E2.
    { by apply N.eqb_eq in E2. }
    by repeat case_match.
Qed.

Lemma backend_message_is_passed_on_witness :
  Http.error_message
    (Http.on_response_error Sample.signed_in
       (Sample.failure "/archives/3/export" 409
          {| Http.detail := Some (Http.Text "archive is closed");
             Http.message := Some "conflict" |})).2
  = Http.Text "archive is closed".
Proof.
  refine (proj1 (backend_message_is_passed_on Sample.signed_in
                   (Sample.failure "/archives/3/export" 409
                      {| Http.detail := Some (Http.Text "archive is closed");
                         Http.message := Some "conflict" |})
                   _ eq_refl _) "archive is closed" eq_refl _).
  - intros H. discriminate H.
  - intros H. discriminate H.
Defined.

(** ** The request interceptor *)

(** X15.  The stored token wins over whatever the request already
    carries, and applying the interceptor again changes nothing; when no
    token is stored, an Authorization header already on the request is
    left in place. *)
Theorem on_request_overwrites_header (b : Http.Browser) (config : Http.Config) :
  Http.on_request b (Http.on_request b config) = Http.on_request b config
  ∧ (∀ token stale,
       Http.localStorage b !! "access_token" = Some token → token ≠ "" →
       Http.headers config !! "Authorization" = Some stale →
       Http.headers (Http.on_request b config) !! "Authorization" =
         Some ("Bearer " +:+ token))
  ∧ (∀ stale,
       Js.truthy (Http.localStorage b !! "access_token") = false →
       Http.headers config !! "Authorization" = Some stale →
       Http.headers (Http.on_request b config) !! "Authorization" = Some stale).
Proof.
  unfold Http.on_request. split_and!.
  - destruct (Http.localStorage b !! "access_token") as [[|a t]|]; try done.
    simpl. by rewrite insert_insert_eq.
  - intros token stale -> Hne _. destruct token as [|a t]; [done|]. simpl.
    by rewrite lookup_insert_eq.
  - intros stale Hfalsy Hstale.
    by destruct (Http.localStorage b !! "access_token") as [[|a t]|].
Qed.

(** * The keys of the selection tree *)

Lemma module_case_keys_differ (m : ModuleItem) (tc : CaseItem) :
  module_key (module_node m) ≠ case_key (case_node tc).
Proof. simpl. intros H. discriminate H. Qed.

Lemma built_keys_elem (listing : list ModuleItem) (k : string) :
  k ∈ List.filter has_children (module_node <$> listing) ≫= module_keys →
  (∃ m, m ∈ listing ∧ k = module_key (module_node m))
  ∨ (∃ m tc, m ∈ listing ∧ tc ∈ cases_of m ∧ k = case_key (case_node tc)).
Proof.
  intros (node & Hk & Hnode)%list_elem_of_bind.
  rewrite filter_bool_prop in Hnode.
  apply list_elem_of_filter in Hnode as [_ (m & -> & Hm)%list_elem_of_fmap].
  unfold module_keys in Hk. apply elem_of_cons in Hk as [->|Hk].
  - left. by exists m.
  - right. cbn [module_children module_node] in Hk.
    rewrite <- list_fmap_compose in Hk.
    apply list_elem_of_fmap in Hk as (tc & -> & Htc). by exists m, tc.
Qed.

Lemma NoDup_fmap_same_image {A B : Type} (f : A → B) (l : list A) (x y : A) :
  NoDup (f <$> l) → x ∈ l → y ∈ l → f x = f y → x = y.
Proof.
  induction l as [|z l IH]; intros Hnd Hx Hy Hf; [by apply elem_of_nil in Hx|].
  rewrite fmap_cons in Hnd. apply NoDup_cons in Hnd as [Hz Hnd].
  apply elem_of_cons in Hx as [->|Hx]; apply elem_of_cons in Hy as [->|Hy].
  - done.
  - exfalso. apply Hz. rewrite Hf. apply list_elem_of_fmap. by exists y.
  - exfalso. apply Hz. rewrite <- Hf. apply list_elem_of_fmap. by exists x.
  - by apply IH.
Qed.

Lemma built_keys_NoDup (listing : list ModuleItem) :
  NoDup (mod_id <$> listing) →
  NoDup (tc_id <$> listing ≫= cases_of) →
  NoDup (List.filter has_children (module_node <$> listing) ≫= module_keys).
Proof.
  induction listing as [|m listing IH]; intros Hmods Hcases; [constructor|].
  rewrite fmap_cons in Hmods. apply NoDup_cons in Hmods as [Hm Hmods].
  cbn [mbind list_bind] in Hcases. rewrite fmap_app in Hcases.
  apply NoDup_app in Hcases as (Hown & Hdisj & Hrest).
  specialize (IH Hmods Hrest).
  rewrite fmap_cons. cbn [List.filter].
  destruct (has_children (module_node m)); [|done].
  cbn [mbind list_bind]. apply NoDup_app. split_and!; [|  |done].
  - unfold module_keys. apply NoDup_cons. split.
    + cbn [module_children module_node]. rewrite <- list_fmap_compose.
      intros (tc & Hk & _)%list_elem_of_fmap.
      by apply module_case_keys_differ in Hk.
    + cbn [module_children module_node]. rewrite <- list_fmap_compose.
      apply (NoDup_fmap_2_strong _); [|by eapply NoDup_fmap_1].
      intros tc1 tc2 H1 H2 Hk. apply case_key_inj in Hk.
      by apply (NoDup_fmap_same_image tc_id (cases_of m)).
  - intros k Hk Hin. apply built_keys_elem in Hin.
    unfold module_keys in Hk. apply elem_of_cons in Hk as [->|Hk].
    + destruct Hin as [(m' & Hm' & Hk)|(m' & tc & _ & _ & Hk)].
      * apply module_key_inj in Hk. apply Hm. rewrite Hk.
        apply list_elem_of_fmap. by exists m'.
      * by apply module_case_keys_differ in Hk.
    + cbn [module_children module_node] in Hk. rewrite <- list_fmap_compose in Hk.
      apply list_elem_of_fmap in Hk as (tc & -> & Htc).
      destruct Hin as [(m' & _ & Hk)|(m' & tc' & Hm' & Htc' & Hk)].
      * symmetry in Hk. by apply module_case_keys_differ in Hk.
      * apply case_key_inj in Hk. apply (Hdisj (tc_id tc)).
        -- apply list_elem_of_fmap. by exists tc.
        -- rewrite Hk. apply list_elem_of_fmap. exists tc'. split; [done|].
           apply list_elem_of_bind. by exists m'.
Qed.

(** X16.  The tree identifies its nodes by [key], and the keys
    [openCreateDialog] hands it never collide: for a listing whose
    modules and whose cases have distinct ids, the keys of the root, of
    the module nodes and of the case leaves are pairwise distinct. *)
Theorem tree_keys_are_distinct
    (getProjectTestCases : N → Reply (list ModuleItem))
    (projectId : N) (v : ProjectArchives.View) (listing : list ModuleItem) :
  getProjectTestCases projectId = Resolved listing →
  NoDup (mod_id <$> listing) →
  NoDup (tc_id <$> listing ≫= cases_of) →
  NoDup (keys_of (treeData (openCreateDialog getProjectTestCases projectId v).1)).
Proof.
  intros Hreply Hmods Hcases. unfold openCreateDialog. rewrite Hreply.
  unfold keys_of, build_tree. cbn [fst treeData mbind list_bind root_key root_children].
  rewrite app_nil_r. apply NoDup_cons. split.
  - intros Hin. apply built_keys_elem in Hin.
    destruct Hin as [(m & _ & Hk)|(m & tc & _ & _ & Hk)]; simpl in Hk;
      discriminate Hk.
  - by apply built_keys_NoDup.
Qed.

Lemma tree_keys_are_distinct_witness :
  keys_of (treeData (openCreateDialog (λ _, Resolved Sample.listing) 5
                       Sample.closed_dialog).1)
    = ["root-all"; "module-1"; "case-11"; "case-12"; "module-4"; "case-41"]
  ∧ NoDup (keys_of (treeData (openCreateDialog (λ _, Resolved Sample.listing) 5
                                Sample.closed_dialog).1)).
Proof.
  split; [reflexivity|].
  apply (tree_keys_are_distinct (λ _, Resolved Sample.listing) 5
           Sample.closed_dialog Sample.listing eq_refl).
  - apply (bool_decide_unpack _). vm_compute. reflexivity.
  - apply (bool_decide_unpack _). vm_compute. reflexivity.
Defined.
